(** * heatseeker: heat map generation (trunk/scripts/heatmap30320111008.py)

    A shallow embedding of the script and the properties of its location
    aggregator and spot compositor.

    The script is Python 2: [/] on two ints is floor division, [float] is
    IEEE binary64 (modelled by the kernel's primitive floats), a dict
    iterates in an order that depends on the hashes of its keys. *)

From Stdlib Require Import ZArith Lia Floats Ascii String.
From stdpp Require Import gmap strings list fin_maps pretty.

Local Open Scope Z_scope.

(** ** Exceptions, events and the monad of the script *)

(** The exceptions the script can end with. [SystemExit] carries the message
    of [sys.exit], [RuntimeError] the one built by [Execute]. *)
Inductive exn :=
| ValueError
| IndexError
| KeyError
| ZeroDivisionError
| OverflowError
| IOError
| OSError
| RuntimeError (msg : string)
| SystemExit (msg : string).

(** What the script does to the outside world: a line on standard output
    ([print]) or a call of [subprocess.call] with the words of a command. *)
Inductive event :=
| Print (line : string)
| Call (args : list string).

(** A computation reads the events so far, adds its own, and ends with a
    value or with an exception. *)
Definition Py (A : Type) : Type := list event → list event * (exn + A).

Definition ret {A} (a : A) : Py A := λ log, (log, inr a).

Definition raise {A} (e : exn) : Py A := λ log, (log, inl e).

Definition bind {A B} (m : Py A) (k : A → Py B) : Py B :=
  λ log, match m log with
         | (log', inr a) => k a log'
         | (log', inl e) => (log', inl e)
         end.

Notation "x <- m ;; k" := (bind m (λ x, k))
  (at level 100, m at next level, right associativity).
Notation "m ;;; k" := (bind m (λ _, k))
  (at level 100, right associativity).

Definition print (line : string) : Py unit := λ log, (log ++ [Print line], inr ()).

(** Lifting of a pure step that may raise. *)
Definition lift {A} (r : exn + A) : Py A := λ log, (log, r).

(** The external commands among the events. *)
Definition calls (log : list event) : list (list string) :=
  omap (λ ev, match ev with Call args => Some args | Print _ => None end) log.

(** ** The host: operating system and Python runtime

    What the script takes from outside its own text. The order in which a
    Python 2 dict yields its keys is some enumeration of the keys. *)
Class Host := {
  (** [os.path.exists] *)
  path_exists : string → bool ;
  (** [open(path, "r")] and the bytes read from it; [None] is an [IOError] *)
  read_file : string → option string ;
  (** [float(s)] on a string; [None] is a [ValueError] *)
  float_of_string : string → option float ;
  (** ['%g' % f] *)
  format_g : float → string ;
  (** the exit status [subprocess.call] returns, given what happened so far;
      [None] when the program cannot be started, an [OSError] *)
  exit_status : list event → list string → option Z ;
  (** [for k in d] *)
  dict_keys : gmap string Z → list string ;
  dict_keys_perm : ∀ d, dict_keys d ≡ₚ (map_to_list d).*1
}.

(** ** Strings: [for line in file], [str.split], [int], ['%d'] *)

(** Iterating a file opened with mode "r" yields its lines, each with its
    terminator; a last line without terminator is yielded as it is. *)
Fixpoint file_lines_from (cur s : string) : list string :=
  match s with
  | EmptyString => if decide (cur = "") then [] else [cur]
  | String c s' =>
      if decide (c = "010"%char)
      then (cur +:+ String c "") :: file_lines_from "" s'
      else file_lines_from (cur +:+ String c "") s'
  end.

Definition file_lines (content : string) : list string :=
  file_lines_from "" content.

(** [s.split(sep)] for a one-character separator. *)
Fixpoint split (sep : ascii) (s : string) : list string :=
  match s with
  | EmptyString => [""]
  | String c s' =>
      if decide (c = sep) then "" :: split sep s'
      else match split sep s' with
           | h :: t => String c h :: t
           | [] => [String c ""]
           end
  end.

(** [' '.join(args)] *)
Fixpoint join (sep : string) (l : list string) : string :=
  match l with
  | [] => ""
  | [s] => s
  | s :: l' => s +:+ sep +:+ join sep l'
  end.

(** C's [isspace] in the "C" locale. *)
Definition is_space (c : ascii) : bool :=
  let n := N_of_ascii c in ((9 <=? n) && (n <=? 13) || (n =? 32))%N.

Definition digit_value (c : ascii) : option Z :=
  let n := N_of_ascii c in
  if ((48 <=? n) && (n <=? 57))%N then Some (Z.of_N n - 48) else None.

Fixpoint skip_space (s : string) : string :=
  match s with
  | String c s' => if is_space c then skip_space s' else s
  | EmptyString => s
  end.

(** Reads decimal digits into [acc]; returns the value, the number of digits
    read and what follows them. *)
Fixpoint read_digits (acc : Z) (n : nat) (s : string) : Z * nat * string :=
  match s with
  | String c s' =>
      match digit_value c with
      | Some d => read_digits (10 * acc + d) (S n) s'
      | None => (acc, n, s)
      end
  | EmptyString => (acc, n, s)
  end.

(** The digits of [int(s)] after the sign has been read: white space, at
    least one digit, white space, end of string. *)
Definition read_unsigned (negative : bool) (s : string) : exn + Z :=
  let '(v, n, rest) := read_digits 0 0 (skip_space s) in
  match n, skip_space rest with
  | S _, EmptyString => inr (if negative then - v else v)
  | _, _ => inl ValueError
  end.

(** [int(s)] on a [str], base 10, as CPython 2 reads it: white space, an
    optional sign, then [read_unsigned] (which allows white space after the
    sign). Anything else is a [ValueError]; a long value is not an error. *)
Definition int (s : string) : exn + Z :=
  match skip_space s with
  | String "-" s' => read_unsigned true s'
  | String "+" s' => read_unsigned false s'
  | s' => read_unsigned false s'
  end.

(** ['%d' % n] *)
Definition fmt_d (n : Z) : string := pretty n.

(** [l[i]] on a list *)
Definition getitem {A} (l : list A) (i : nat) : exn + A :=
  match l !! i with
  | Some a => inr a
  | None => inl IndexError
  end.

(** [d[k]] on a dict *)
Definition dict_get (d : gmap string Z) (k : string) : exn + Z :=
  match d !! k with
  | Some v => inr v
  | None => inl KeyError
  end.

(** ** Floats *)

(** 1.0 as a specification float. *)
Definition one_sf : spec_float := S754_finite false 4503599627370496 (-52).

(** [float(n)] on an int or long: the nearest binary64 value, ties to even;
    a value too large for a float is an [OverflowError]. *)
Definition float_of_int (n : Z) : exn + float :=
  match binary_normalize prec emax n 0 false with
  | S754_infinity _ => inl OverflowError
  | sf => inr (SF2Prim sf)
  end.

(** [a / b] on a float and an int: the int is converted, and a zero divisor
    is a [ZeroDivisionError]. *)
Definition float_div_int (a : float) (b : Z) : exn + float :=
  match float_of_int b with
  | inl e => inl e
  | inr fb => if (fb =? 0)%float then inl ZeroDivisionError else inr (a / fb)%float
  end.

(** ** Location aggregator (lines 76-87) *)

(** One iteration of [for location in file]; the loop state is the pair of
    [uniqueLocations] and [maxRepetitions]. *)
Definition count_line (st : gmap string Z * Z) (location : string)
  : gmap string Z * Z :=
  let '(uniqueLocations, maxRepetitions) := st in
  let uniqueLocations :=
    match uniqueLocations !! location with
    | None => <[location := 1]> uniqueLocations
    | Some n => <[location := n + 1]> uniqueLocations
    end in
  if maxRepetitions <? uniqueLocations !!! location
  then (uniqueLocations, uniqueLocations !!! location)
  else (uniqueLocations, maxRepetitions).

Definition aggregate (lines : list string) : gmap string Z * Z :=
  foldl count_line (∅, 0) lines.

(** [sum(counts.values())], and [max(counts.values())] with 0 for the empty
    mapping. *)
Definition sum_counts (d : gmap string Z) : Z :=
  map_fold (λ _ v acc, v + acc) 0 d.

Definition max_count (d : gmap string Z) : Z :=
  map_fold (λ _ v acc, Z.max v acc) 0 d.

(** ** Spot compositor (lines 101-149) *)

(** Lines 103-111: the corner at which the 64x64 spot is placed. *)
Definition placement (canvas_size_y location : string) : exn + Z * Z :=
  let xy := split "," location in
  match getitem xy 0 with inl e => inl e | inr xy0 =>
  match int xy0 with inl e => inl e | inr x0 =>
  let x := x0 / 2 - 32 in
  match int canvas_size_y with inl e => inl e | inr h =>
  match getitem xy 1 with inl e => inl e | inr xy1 =>
  match int xy1 with inl e => inl e | inr y0 =>
  let y := (h - y0 / 2) - 32 in
  inr (x, y)
  end end end end end.

(** Lines 115-120: a coordinate in ImageMagick's [+X] or [-X] form. *)
Definition offset_str (v : Z) : string :=
  if v <? 0 then fmt_d v else "+" +:+ fmt_d v.

(** Lines 123-125: [float(weight) / maxRepetitions] times [scale]. *)
Definition opacity (weight maxRepetitions : Z) (scale : float) : exn + float :=
  match float_of_int weight with inl e => inl e | inr fw =>
  match float_div_int fw maxRepetitions with inl e => inl e | inr contribution =>
  inr (contribution * scale)%float
  end end.

(** Line 129: the opacity inverted, the amount of white blended into the
    spot. *)
Definition whitening (weight maxRepetitions : Z) (scale : float) : exn + float :=
  match opacity weight maxRepetitions scale with
  | inl e => inl e
  | inr contribution => inr (1 - contribution)%float
  end.

Section Program.
Context `{Host}.

(** [subprocess.call]: the command is run and its exit status returned. *)
Definition subprocess_call (args : list string) : Py Z :=
  λ log, (log ++ [Call args],
          match exit_status log args with
          | Some status => inr status
          | None => inl OSError
          end).

(** Lines 163-166. *)
Definition Execute (args : list string) : Py unit :=
  status <- subprocess_call args ;;
  if 0 <? status then raise (RuntimeError ("FAILED: " +:+ join " " args))
  else ret ().

(** The command of lines 138-142. *)
Definition stamp_command (x y : Z) (contribution : float) : list string :=
  ["convert"; "empty.miff";
   "("; "spot.png"; "-fill"; "white"; "-colorize";
        format_g (contribution * 100)%float +:+ "%"; ")";
   "-geometry"; offset_str x +:+ offset_str y;
   "-compose"; "multiply";
   "-composite"; "empty.miff"].

(** The body of [for location in uniqueLocations] (lines 103-149); [count]
    and [percent] are the progress counters carried around the loop. *)
Definition spot (uniqueLocations : gmap string Z) (maxRepetitions : Z)
    (canvas_size_y : string) (scale : float) (ten_percent : Z)
    (location : string) (progress : Z * Z) : Py (Z * Z) :=
  let '(count, percent) := progress in
  xy <- lift (placement canvas_size_y location) ;;
  weight <- lift (dict_get uniqueLocations location) ;;
  contribution <- lift (whitening weight maxRepetitions scale) ;;
  (if (0 <? contribution)%float
   then Execute (stamp_command xy.1 xy.2 contribution)
   else ret ()) ;;;
  let count := count + 1 in
  if ten_percent <? count
  then print (fmt_d (percent + 10) +:+ "%...") ;;; ret (0, percent + 10)
  else ret (count, percent).

Fixpoint spots (uniqueLocations : gmap string Z) (maxRepetitions : Z)
    (canvas_size_y : string) (scale : float) (ten_percent : Z)
    (keys : list string) (progress : Z * Z) : Py unit :=
  match keys with
  | [] => ret ()
  | location :: keys =>
      progress <- spot uniqueLocations maxRepetitions canvas_size_y scale
                    ten_percent location progress ;;
      spots uniqueLocations maxRepetitions canvas_size_y scale ten_percent
        keys progress
  end.

(** The stamp an iteration issues for [location], if any: none when the
    location does not parse or the whitening factor is not positive. *)
Definition expected_stamp (uniqueLocations : gmap string Z) (maxRepetitions : Z)
    (canvas_size_y : string) (scale : float) (location : string)
  : list (list string) :=
  match placement canvas_size_y location with inl _ => [] | inr xy =>
  match dict_get uniqueLocations location with inl _ => [] | inr weight =>
  match whitening weight maxRepetitions scale with inl _ => [] | inr contribution =>
  if (0 <? contribution)%float
  then [stamp_command xy.1 xy.2 contribution] else []
  end end end.

(** ** The whole run (lines 50-160) *)

Definition GenerateHeatMap (event_file level_image canvas_size_x canvas_size_y : string)
    (scale : float) : Py unit :=
  print ("Reading " +:+ event_file +:+ "...") ;;;
  content <- lift (match read_file event_file with
                   | Some c => inr c
                   | None => inl IOError
                   end) ;;
  let '(uniqueLocations, maxRepetitions) := aggregate (file_lines content) in
  Execute ["convert"; "-size"; canvas_size_x +:+ "x" +:+ canvas_size_y;
           "pattern:gray100"; "empty.miff"] ;;;
  print (fmt_d maxRepetitions +:+ " max repetitions") ;;;
  let total_count := Z.of_nat (size uniqueLocations) in
  let ten_percent := total_count / 10 in
  spots uniqueLocations maxRepetitions canvas_size_y scale ten_percent
    (dict_keys uniqueLocations) (0, 0) ;;;
  Execute ["convert"; "empty.miff"; "-negate"; "full.miff"] ;;;
  Execute ["convert"; "full.miff"; "colors.png"; "-fx"; "v.p{0,u*v.h}";
           "final.miff"] ;;;
  Execute ["composite"; "-blend"; "40%"; "final.miff"; level_image;
           "heatmap.png"] ;;;
  print "Complete.".

Definition main (argv : list string) : Py unit :=
  if (length argv <? 4)%nat
  then raise (SystemExit
    "Usage: process.py event_file level_file canvas_size_x canvas_size_y [scale]")
  else
    let arg i := default "" (argv !! i) in
    if negb (path_exists (arg 0%nat))
    then raise (SystemExit ("ERROR: File " +:+ arg 0%nat +:+ " was not found!"))
    else if negb (path_exists (arg 1%nat))
    then raise (SystemExit ("ERROR: File " +:+ arg 1%nat +:+ " was not found!"))
    else
      scale <- (if (4 <? length argv)%nat
                then lift (match float_of_string (arg 4%nat) with
                           | Some f => inr f
                           | None => inl ValueError
                           end)
                else ret 1%float) ;;
      GenerateHeatMap (arg 0%nat) (arg 1%nat) (arg 2%nat) (arg 3%nat) scale.

End Program.

(** ** Specification vocabulary *)

(** The number of lines equal to [k], terminator included. *)
Definition occurrences (k : string) (lines : list string) : Z :=
  Z.of_nat (length (filter (λ l, l = k) lines)).

(** The loop invariant of the aggregation. *)
Definition aggregate_inv (st : gmap string Z * Z) : Prop :=
  map_Forall (λ _ v, 1 ≤ v) st.1 ∧
  (∀ k v, st.1 !! k = Some v → v ≤ st.2) ∧
  st.2 = max_count st.1 ∧
  (st.1 ≠ ∅ → ∃ k, st.1 !! k = Some st.2).

(** A decimal integer: an optional sign and at least one digit. *)
Fixpoint all_digits (s : string) : bool :=
  match s with
  | EmptyString => true
  | String c s' => bool_decide (is_Some (digit_value c)) && all_digits s'
  end.

Definition unsigned_decimal (s : string) : bool :=
  bool_decide (s ≠ "") && all_digits s.

Definition signed_decimal (s : string) : bool :=
  match s with
  | String "-" s' => unsigned_decimal s'
  | String "+" s' => unsigned_decimal s'
  | _ => unsigned_decimal s
  end.

(** The characters of a string. *)
Fixpoint chars (s : string) : list ascii :=
  match s with
  | EmptyString => []
  | String c s' => c :: chars s'
  end.

(** ** Rounding to nearest, as a function of the quotient rounded

    What [binary_round_aux] computes through shifts and sticky bits, stated
    on integers. *)

(** The position of the quotient [a / b] among the half-integers: twice the
    integral part of [2a / b], plus one if [2a / b] is not an integer. *)
Definition code (a b : Z) : Z :=
  2 * (2 * a / b) + (if 2 * a mod b =? 0 then 0 else 1).

(** The same for a shift record: mantissa, round bit, sticky bit. *)
Definition rec_code (r : shr_record) : Z :=
  4 * shr_m r + (if shr_r r then 2 else 0) + (if shr_s r then 1 else 0).

Definition loc_code (l : location) : Z :=
  match l with
  | loc_Exact => 0
  | loc_Inexact Lt => 1
  | loc_Inexact Eq => 2
  | loc_Inexact Gt => 3
  end.

(** One shift to the right, on codes. *)
Definition halve (c : Z) : Z := 2 * (c / 4) + (if c mod 4 =? 0 then 0 else 1).

(** Rounding to nearest, ties to even, on codes. *)
Definition rne (c : Z) : Z :=
  if c mod 4 <? 2 then c / 4
  else if c mod 4 =? 2 then (if Z.even (c / 4) then c / 4 else c / 4 + 1)
  else c / 4 + 1.

(** The float made of the rounded mantissa [m] at exponent [t]: a mantissa
    that reached [2 ^ 53] moves to the next exponent, an exponent above the
    largest one gives infinity. *)
Definition finish (m t : Z) : spec_float :=
  if m =? 2 ^ 53 then
    if t + 1 <=? 971 then S754_finite false 4503599627370496 (t + 1)
    else S754_infinity false
  else
    match m with
    | Z0 => S754_zero false
    | Zpos p => if t <=? 971 then S754_finite false p t else S754_infinity false
    | Zneg _ => S754_nan
    end.

(** The exponent at which [a / b * 2 ^ e] is rounded. *)
Definition target (a b e : Z) : Z := Z.max (Zdigits2 (a / b) + e - 53) (-1074).

(** [a / b * 2 ^ e] rounded to nearest, ties to even. *)
Definition round_quotient (a b e : Z) : spec_float :=
  let t := target a b e in
  finish (rne (code a (b * 2 ^ (t - e)))) t.

(** ** A host for closed examples

    Every path exists, the event file holds the scenario of the
    documentation (three events at 10,10 and one at 50,50), every command
    succeeds, and the keys of a dict come in the order of [map_to_list].
    Its [format_g] prints the integral part only. *)
Definition newline : string := String "010"%char "".

Definition sample_events : string :=
  "10,10" +:+ newline +:+ "10,10" +:+ newline +:+ "10,10" +:+ newline +:+
  "50,50" +:+ newline.

Definition show_float (f : float) : string :=
  match Prim2SF f with
  | S754_zero _ => "0"
  | S754_infinity s => if s then "-inf" else "inf"
  | S754_nan => "nan"
  | S754_finite s m e => (if s then "-" else "") +:+ pretty (Z.shiftl (Zpos m) e)
  end.

Definition sample_host : Host := {|
  path_exists := λ _, true;
  read_file := λ p, if decide (p = "events.txt") then Some sample_events
                    else if decide (p = "empty.txt") then Some ""
                    else None;
  float_of_string := λ s, if decide (s = "0.5") then Some 0.5%float else None;
  format_g := show_float;
  exit_status := λ _ _, Some 0;
  dict_keys := λ d, (map_to_list d).*1;
  dict_keys_perm := λ d, reflexivity _ |}.

(** ** Vocabulary of the properties of a whole run *)

(** The lines printed among the events. *)
Definition prints (log : list event) : list string :=
  omap (λ ev, match ev with Print line => Some line | Call _ => None end) log.

(** The exceptions with which a run of [GenerateHeatMap] can end: those of
    the event file, of the parsing of a line, of the conversion of a count
    and of a command. *)
Definition run_failure (e : exn) : bool :=
  match e with
  | ValueError | IndexError | OverflowError | IOError | OSError
  | RuntimeError _ => true
  | KeyError | ZeroDivisionError | SystemExit _ => false
  end.

(** The notices of lines 146-149: "10%...", "20%...", up to the [k]-th. *)
Definition progress_notices (k : nat) : list string :=
  (λ j, fmt_d (10 * Z.of_nat j) +:+ "%...") <$> seq 1 k.

(** A host like [sample_host] whose event file holds [content] and whose
    commands all return [status]. *)
Definition scripted_host (content : string) (status : Z) : Host := {|
  path_exists := λ _, true;
  read_file := λ _, Some content;
  float_of_string := λ s, if decide (s = "0.5") then Some 0.5%float else None;
  format_g := show_float;
  exit_status := λ _ _, Some status;
  dict_keys := λ d, (map_to_list d).*1;
  dict_keys_perm := λ d, reflexivity _ |}.

(** * Properties *)

(** ** The aggregator *)

Section AggregatorFacts.
Implicit Types (d : gmap string Z) (k location : string) (lines : list string).

Lemma sum_counts_empty : sum_counts ∅ = 0.
Proof. apply map_fold_empty. Qed.

Lemma sum_counts_insert d k v :
  d !! k = None → sum_counts (<[k:=v]> d) = v + sum_counts d.
Proof.
  intros Hk. unfold sum_counts.
  apply (map_fold_insert_L (λ _ v acc, v + acc)); [intros; lia | done].
Qed.

Lemma sum_counts_update d k n v :
  d !! k = Some n → sum_counts (<[k:=v]> d) = sum_counts d - n + v.
Proof.
  intros Hk.
  rewrite <-(insert_delete_eq d k v).
  rewrite <-(insert_delete_id d k n) at 2 by done.
  rewrite !sum_counts_insert by apply lookup_delete_eq. lia.
Qed.

Lemma max_count_empty : max_count ∅ = 0.
Proof. apply map_fold_empty. Qed.

Lemma max_count_insert d k v :
  d !! k = None → max_count (<[k:=v]> d) = Z.max v (max_count d).
Proof.
  intros Hk. unfold max_count.
  apply (map_fold_insert_L (λ _ v acc, Z.max v acc)); [intros; lia | done].
Qed.

(** [max_count] bounds every count, and is one of them unless it is 0. *)
Lemma max_count_upper d k v : d !! k = Some v → v ≤ max_count d.
Proof.
  revert k v. induction d as [|j x d Hj IH] using map_ind; intros k v.
  - by rewrite lookup_empty.
  - rewrite max_count_insert by done. rewrite lookup_insert.
    case_decide; [intros [= ->]; lia|]. intros Hv. specialize (IH _ _ Hv). lia.
Qed.

Lemma max_count_nonneg d : 0 ≤ max_count d.
Proof.
  induction d as [|j x d Hj IH] using map_ind.
  - by rewrite max_count_empty.
  - rewrite max_count_insert by done. lia.
Qed.

Lemma max_count_attained d :
  max_count d = 0 ∨ ∃ k, d !! k = Some (max_count d).
Proof.
  induction d as [|j x d Hj IH] using map_ind.
  - left. apply max_count_empty.
  - rewrite max_count_insert by done.
    destruct (Z.max_spec x (max_count d)) as [[Hlt ->]|[Hle ->]].
    + destruct IH as [H0|[k Hk]]; [left; done|].
      right. exists k. rewrite lookup_insert_ne; [done|]. congruence.
    + right. exists j. apply lookup_insert_eq.
Qed.

(** An upper bound that some key reaches is the maximum. *)
Lemma max_count_unique d m k :
  (∀ j v, d !! j = Some v → v ≤ m) → d !! k = Some m → 0 ≤ m →
  max_count d = m.
Proof.
  intros Hub Hk Hm. pose proof (max_count_upper _ _ _ Hk).
  destruct (max_count_attained d) as [H0|[j Hj]]; [lia|].
  specialize (Hub _ _ Hj). lia.
Qed.

(** What one iteration does to the mapping and to the running maximum. *)
Lemma count_line_spec d m location :
  count_line (d, m) location =
    let c := default 0 (d !! location) + 1 in
    (<[location := c]> d, Z.max m c).
Proof.
  unfold count_line.
  destruct (d !! location) as [n|] eqn:Hn; simpl;
    rewrite lookup_total_insert_eq;
    destruct (Z.ltb_spec m (n + 1)) || destruct (Z.ltb_spec m 1);
    f_equal; lia.
Qed.

Lemma aggregate_snoc lines location :
  aggregate (lines ++ [location]) = count_line (aggregate lines) location.
Proof. unfold aggregate. by rewrite foldl_app. Qed.

Lemma occurrences_snoc k lines location :
  occurrences k (lines ++ [location]) =
    occurrences k lines + (if decide (location = k) then 1 else 0).
Proof.
  unfold occurrences. rewrite filter_app, length_app, filter_cons, filter_nil.
  case_decide; simpl; lia.
Qed.

Lemma occurrences_nonneg k lines : 0 ≤ occurrences k lines.
Proof. unfold occurrences. lia. Qed.

Lemma aggregate_lookup lines k :
  (aggregate lines).1 !! k =
    if decide (occurrences k lines = 0) then None else Some (occurrences k lines).
Proof.
  induction lines as [|location lines IH] using rev_ind.
  - unfold aggregate. simpl. by rewrite lookup_empty.
  - rewrite aggregate_snoc, occurrences_snoc.
    destruct (aggregate lines) as [d m]. rewrite count_line_spec. simpl in *.
    pose proof (occurrences_nonneg k lines).
    rewrite lookup_insert. destruct (decide (location = k)) as [->|Hne].
    + rewrite IH. repeat case_decide; simpl; try lia; f_equal; lia.
    + rewrite IH. repeat case_decide; try lia; f_equal; lia.
Qed.

Lemma aggregate_inv_init : aggregate_inv (∅, 0).
Proof.
  unfold aggregate_inv. split_and!.
  - apply map_Forall_empty.
  - intros k v. simpl. by rewrite lookup_empty.
  - symmetry. apply max_count_empty.
  - done.
Qed.

Lemma aggregate_inv_step st location :
  aggregate_inv st → aggregate_inv (count_line st location).
Proof.
  destruct st as [d m]. intros (Hpos & Hub & Hmax & Hatt).
  simpl in Hpos, Hub, Hmax, Hatt.
  rewrite count_line_spec. cbv zeta.
  set (c := default 0 (d !! location) + 1).
  assert (Hc : 1 ≤ c).
  { unfold c. destruct (d !! location) as [n|] eqn:Hn; simpl; [|lia].
    specialize (Hpos _ _ Hn). simpl in Hpos. lia. }
  assert (Hm0 : 0 ≤ m) by (subst m; apply max_count_nonneg).
  assert (Hub' : ∀ k v, <[location:=c]> d !! k = Some v → v ≤ Z.max m c).
  { intros k v. rewrite lookup_insert. case_decide.
    - intros [= <-]. lia.
    - intros Hv. specialize (Hub _ _ Hv). lia. }
  assert (Hatt' : ∃ k, <[location:=c]> d !! k = Some (Z.max m c)).
  { destruct (Z.max_spec m c) as [[Hlt ->]|[Hle ->]].
    - exists location. apply lookup_insert_eq.
    - destruct (decide (d = ∅)) as [->|Hne].
      + exfalso. unfold c in *. rewrite lookup_empty in *. simpl in *.
        rewrite max_count_empty in Hmax. lia.
      + destruct (Hatt Hne) as [k Hk]. exists k.
        rewrite lookup_insert_ne; [done|]. intros <-.
        unfold c in Hle. rewrite Hk in Hle. simpl in Hle. lia. }
  unfold aggregate_inv. split_and!.
  - apply map_Forall_insert_2; [done|]. done.
  - done.
  - destruct Hatt' as [k Hk]. symmetry.
    apply (max_count_unique _ _ k); [exact Hub' | exact Hk | simpl; lia].
  - done.
Qed.

Lemma aggregate_inv_holds lines : aggregate_inv (aggregate lines).
Proof.
  induction lines as [|location lines IH] using rev_ind.
  - apply aggregate_inv_init.
  - rewrite aggregate_snoc. by apply aggregate_inv_step.
Qed.

Lemma aggregate_nonempty lines : lines ≠ [] → (aggregate lines).1 ≠ ∅.
Proof.
  destruct lines as [|l lines _] using rev_ind; [done|]. intros _.
  rewrite aggregate_snoc. destruct (aggregate lines) as [d m].
  rewrite count_line_spec. simpl. apply insert_non_empty.
Qed.

End AggregatorFacts.

(** ** The compositor *)

Section ProgramFacts.
Context `{Host}.

Lemma calls_app log1 log2 : calls (log1 ++ log2) = calls log1 ++ calls log2.
Proof. unfold calls. apply omap_app. Qed.

Lemma Execute_spec args log :
  Execute args log =
    (log ++ [Call args],
     match exit_status log args with
     | None => inl OSError
     | Some status =>
         if 0 <? status
         then inl (RuntimeError ("FAILED: " +:+ join " " args)) else inr ()
     end).
Proof.
  unfold Execute, bind, subprocess_call.
  destruct (exit_status log args) as [status|]; [|done].
  by destruct (0 <? status).
Qed.

(** One iteration issues the expected stamp of its location and no other
    command, whether it ends normally or with an exception. *)
Lemma spot_calls d m h scale tp location progress log :
  calls (spot d m h scale tp location progress log).1
  = calls log ++ expected_stamp d m h scale location.
Proof.
  unfold spot, expected_stamp, bind, lift. destruct progress as [count percent].
  destruct (placement h location) as [e|xy]; simpl; [by rewrite app_nil_r|].
  destruct (dict_get d location) as [e|w]; simpl; [by rewrite app_nil_r|].
  destruct (whitening w m scale) as [e|c]; simpl; [by rewrite app_nil_r|].
  destruct (0 <? c)%float.
  - rewrite Execute_spec.
    destruct (exit_status _ _) as [status|]; simpl; [|by rewrite calls_app].
    destruct (0 <? status); simpl; [by rewrite calls_app|].
    destruct (tp <? count + 1); simpl; unfold print, ret; simpl;
      rewrite ?calls_app; simpl; by rewrite ?app_nil_r.
  - unfold ret at 1. simpl.
    destruct (tp <? count + 1); simpl; unfold print, ret; simpl;
      rewrite ?calls_app; simpl; by rewrite ?app_nil_r.
Qed.

(** An iteration that ends normally has parsed its location and computed
    its whitening factor. *)
Lemma spot_inr d m h scale tp location progress log log' progress' :
  spot d m h scale tp location progress log = (log', inr progress') →
  ∃ xy w c, placement h location = inr xy ∧ dict_get d location = inr w ∧
            whitening w m scale = inr c.
Proof.
  unfold spot, bind, lift. destruct progress as [count percent].
  destruct (placement h location) as [e|xy]; simpl; [done|].
  destruct (dict_get d location) as [e|w]; simpl; [done|].
  destruct (whitening w m scale) as [e|c] eqn:Hw; simpl; [done|].
  intros _. by exists xy, w, c.
Qed.

Lemma spots_calls d m h scale tp keys progress log log' :
  spots d m h scale tp keys progress log = (log', inr ()) →
  calls log' = calls log ++ flat_map (expected_stamp d m h scale) keys ∧
  Forall (λ location, ∃ xy w c,
            placement h location = inr xy ∧ dict_get d location = inr w ∧
            whitening w m scale = inr c) keys.
Proof.
  revert progress log. induction keys as [|location keys IH]; intros progress log.
  - simpl. unfold ret. intros [= <-]. by rewrite app_nil_r.
  - simpl. unfold bind at 1.
    destruct (spot d m h scale tp location progress log) as [log1 [e|pr]] eqn:Hs;
      [done|].
    intros Hrest. destruct (IH _ _ Hrest) as [-> Hall].
    pose proof (spot_calls d m h scale tp location progress log) as Hc.
    rewrite Hs in Hc. simpl in Hc. rewrite Hc, <-app_assoc. split; [done|].
    constructor; [|done]. by eapply spot_inr.
Qed.

(** The commands before and after the loop. *)
Lemma GenerateHeatMap_calls event_file level_image cx cy scale log log' :
  GenerateHeatMap event_file level_image cx cy scale log = (log', inr ()) →
  ∃ content, read_file event_file = Some content ∧
    let d := (aggregate (file_lines content)).1 in
    let m := (aggregate (file_lines content)).2 in
    calls log' = calls log ++
      ["convert"; "-size"; cx +:+ "x" +:+ cy; "pattern:gray100"; "empty.miff"]
      :: flat_map (expected_stamp d m cy scale) (dict_keys d)
      ++ [["convert"; "empty.miff"; "-negate"; "full.miff"];
          ["convert"; "full.miff"; "colors.png"; "-fx"; "v.p{0,u*v.h}";
           "final.miff"];
          ["composite"; "-blend"; "40%"; "final.miff"; level_image;
           "heatmap.png"]] ∧
    Forall (λ location, ∃ xy w c,
              placement cy location = inr xy ∧ dict_get d location = inr w ∧
              whitening w m scale = inr c) (dict_keys d).
Proof.
  unfold GenerateHeatMap. unfold bind at 1, print at 1.
  unfold bind at 1, lift at 1.
  destruct (read_file event_file) as [content|]; [|done].
  intros Hrun. exists content. split; [done|].
  destruct (aggregate (file_lines content)) as [d m]. simpl.
  revert Hrun.
  unfold bind at 1. rewrite Execute_spec.
  destruct (exit_status _ _) as [?|]; [|done].
  destruct (0 <? _); [done|].
  unfold bind at 1, print at 1. unfold bind at 1.
  match goal with |- context [spots d m cy scale ?tp ?ks ?pr ?lg] =>
    destruct (spots d m cy scale tp ks pr lg) as [log1 [e|[]]] eqn:Hs end; [done|].
  apply spots_calls in Hs as [Hc Hall].
  unfold bind at 1. rewrite Execute_spec.
  destruct (exit_status _ _) as [?|]; [|done].
  destruct (0 <? _); [done|].
  unfold bind at 1. rewrite Execute_spec.
  destruct (exit_status _ _) as [?|]; [|done].
  destruct (0 <? _); [done|].
  unfold bind at 1. rewrite Execute_spec.
  destruct (exit_status _ _) as [?|]; [|done].
  destruct (0 <? _); [done|].
  unfold print. intros [= <-]. split; [|done].
  rewrite !calls_app, Hc, !calls_app. simpl.
  rewrite !app_nil_r, <-!app_assoc. simpl. done.
Qed.

End ProgramFacts.

(** ** Strings *)

Section StringFacts.
Implicit Types (s t : string) (c : ascii).
Local Arguments String.append !_ _ / : simpl nomatch.




Lemma chars_app s t : chars (s +:+ t) = chars s ++ chars t.
Proof. induction s; simpl; by f_equal. Qed.



(** *** [split] *)

Lemma split_no_sep sep s : sep ∉ chars s → split sep s = [s].
Proof.
  induction s as [|c s IH]; simpl; [done|].
  rewrite not_elem_of_cons. intros [Hc Hs].
  case_decide; [done|]. by rewrite IH.
Qed.

Lemma split_at_sep sep s t :
  sep ∉ chars s → split sep (s +:+ String sep t) = s :: split sep t.
Proof.
  induction s as [|c s IH]; simpl.
  - intros _. by case_decide.
  - rewrite not_elem_of_cons. intros [Hc Hs].
    case_decide; [done|]. by rewrite IH.
Qed.


(** *** [int] *)

Lemma skip_space_app_space s t :
  skip_space t = "" →
  skip_space (s +:+ t) = "" ∧ skip_space s = "" ∨
  skip_space (s +:+ t) = skip_space s +:+ t ∧ skip_space s ≠ "".
Proof.
  intros Ht. induction s as [|c s IH]; simpl; [by left|].
  destruct (is_space c); [done|]. by right.
Qed.

Lemma read_digits_app acc n s t :
  match t with String c _ => digit_value c = None | EmptyString => True end →
  read_digits acc n (s +:+ t)
  = let '(v, k, rest) := read_digits acc n s in (v, k, rest +:+ t).
Proof.
  intros Ht. revert acc n. induction s as [|c s IH]; intros acc n; simpl.
  - destruct t as [|c t]; simpl; [done|]. by rewrite Ht.
  - destruct (digit_value c); [apply IH|done].
Qed.

Lemma read_unsigned_app_newline neg s :
  read_unsigned neg (s +:+ newline) = read_unsigned neg s.
Proof.
  assert (Hsp : skip_space newline = "") by done.
  unfold read_unsigned.
  destruct (skip_space_app_space s newline Hsp) as [[-> ->]|[-> Hne]]; [done|].
  rewrite read_digits_app by done.
  destruct (read_digits 0 0 (skip_space s)) as [[v n] rest].
  destruct (skip_space_app_space rest newline Hsp) as [[-> ->]|[-> Hne']]; [done|].
  destruct n; [done|]. by destruct (skip_space rest).
Qed.

(** A line terminator after a field does not change what [int] reads. *)
Lemma int_app_newline s : int (s +:+ newline) = int s.
Proof.
  assert (Hsp : skip_space newline = "") by done.
  unfold int.
  destruct (skip_space_app_space s newline Hsp) as [[-> ->]|[-> Hne]]; [done|].
  destruct (skip_space s) as [|c u]; [done|].
  destruct c as [[] [] [] [] [] [] [] []];
    solve [apply read_unsigned_app_newline
          |apply (read_unsigned_app_newline false (String _ u))].
Qed.


(** *** Decimal integers are read, fractions are not *)

Lemma all_digits_read acc n s :
  all_digits s = true →
  ∃ v, read_digits acc n s = (v, (n + String.length s)%nat, "").
Proof.
  revert acc n. induction s as [|c s IH]; intros acc n; simpl.
  - intros _. exists acc. by rewrite Nat.add_0_r.
  - intros [[d Hd]%bool_decide_eq_true Hs]%andb_true_iff. rewrite Hd.
    destruct (IH (10 * acc + d) (S n) Hs) as [v ->]. exists v.
    do 2 f_equal. lia.
Qed.

Lemma digit_not_space c : is_Some (digit_value c) → is_space c = false.
Proof. destruct c as [[] [] [] [] [] [] [] []]; by intros [? [=]]. Qed.

Lemma unsigned_decimal_read neg s :
  unsigned_decimal s = true → ∃ v, read_unsigned neg s = inr v.
Proof.
  intros [Hne%bool_decide_eq_true Hs]%andb_true_iff.
  unfold read_unsigned.
  assert (skip_space s = s) as ->.
  { destruct s as [|c s]; [done|]. simpl in *.
    apply andb_true_iff in Hs as [Hc%bool_decide_eq_true _].
    by rewrite digit_not_space. }
  destruct (all_digits_read 0 0 s Hs) as [v ->].
  destruct s as [|c s]; [done|]. simpl. eauto.
Qed.

Lemma signed_decimal_int s : signed_decimal s = true → ∃ v, int s = inr v.
Proof.
  unfold int. destruct s as [|c s]; [done|].
  destruct c as [[] [] [] [] [] [] [] []]; simpl;
    try apply unsigned_decimal_read; try done.
Qed.

Lemma signed_decimal_chars s c :
  signed_decimal s = true → c ∈ chars s →
  is_Some (digit_value c) ∨ c = "-"%char ∨ c = "+"%char.
Proof.
  assert (Hall : ∀ u, all_digits u = true → c ∈ chars u → is_Some (digit_value c)).
  { induction u as [|c' u IH]; simpl; [by intros _ ?%elem_of_nil|].
    intros [Hc%bool_decide_eq_true Hu]%andb_true_iff [->|Hin]%elem_of_cons; auto. }
  assert (Hun : ∀ u, unsigned_decimal u = true → c ∈ chars u →
                     is_Some (digit_value c)).
  { intros u [_ Hu]%andb_true_iff. by apply Hall. }
  destruct s as [|c' s]; [done|]. simpl chars. rewrite elem_of_cons.
  destruct (decide (c' = "-"%char)) as [->|Hm].
  { simpl. intros Hs [->|Hin]; eauto. }
  destruct (decide (c' = "+"%char)) as [->|Hp].
  { simpl. intros Hs [->|Hin]; eauto. }
  intros Hs Hin. left. apply (Hun (String c' s)).
  - destruct c' as [[] [] [] [] [] [] [] []]; done.
  - simpl. by rewrite elem_of_cons.
Qed.

Lemma skip_space_keeps c s :
  is_space c = false → c ∈ chars s → c ∈ chars (skip_space s).
Proof.
  intros Hc. induction s as [|c' s IH]; simpl; [done|].
  destruct (is_space c') eqn:Hc'; [|done].
  intros [->|Hin]%elem_of_cons; [congruence|auto].
Qed.

Lemma read_digits_keeps c acc n s :
  digit_value c = None → c ∈ chars s → c ∈ chars (read_digits acc n s).2.
Proof.
  intros Hc. revert acc n. induction s as [|c' s IH]; intros acc n; simpl; [done|].
  destruct (digit_value c') eqn:Hc'; [|done].
  intros [->|Hin]%elem_of_cons; [congruence|auto].
Qed.

Lemma read_unsigned_dot neg s :
  "."%char ∈ chars s → read_unsigned neg s = inl ValueError.
Proof.
  intros Hin. unfold read_unsigned.
  apply (skip_space_keeps "."%char) in Hin; [|done].
  apply (read_digits_keeps "."%char 0 0) in Hin; [|done].
  destruct (read_digits 0 0 (skip_space s)) as [[v n] rest]. simpl in Hin.
  apply (skip_space_keeps "."%char) in Hin; [|done].
  destruct n; [done|]. destruct (skip_space rest); [|done].
  by apply elem_of_nil in Hin.
Qed.

(** A field with a decimal point is not an [int] literal. *)
Lemma int_dot s : "."%char ∈ chars s → int s = inl ValueError.
Proof.
  intros Hin. unfold int.
  apply (skip_space_keeps "."%char) in Hin; [|done].
  destruct (skip_space s) as [|c u]; [by apply elem_of_nil in Hin|].
  destruct (decide (c = "."%char)) as [Heq|Hc].
  { subst c. by apply (read_unsigned_dot false (String "." u)). }
  simpl in Hin. apply elem_of_cons in Hin as [Heq|Hin]; [congruence|].
  clear Hc. destruct c as [[] [] [] [] [] [] [] []];
    solve [by apply read_unsigned_dot
          |apply (read_unsigned_dot false (String _ u)); simpl;
           by apply elem_of_cons; right].
Qed.

End StringFacts.

(** ** Floats *)

Section FloatFacts.


(** The result of rounding to a negative sign is never above zero. *)
Lemma binary_round_aux_neg m e l :
  SFltb (S754_zero false) (binary_round_aux prec emax true m e l) = false.
Proof.
  unfold binary_round_aux.
  destruct (shr_fexp prec emax m e l) as [mrs' e'].
  destruct (shr_fexp prec emax _ e' loc_Exact) as [mrs'' e''].
  destruct (shr_m mrs''); [done| |done].
  by destruct (e'' <=? emax - prec).
Qed.

Lemma digits2_pos_bounds p :
  2 ^ (Zpos (digits2_pos p) - 1) ≤ Zpos p < 2 ^ Zpos (digits2_pos p).
Proof.
  induction p as [p IH|p IH|]; cbn [digits2_pos]; [| |done].
  - rewrite Pos2Z.inj_succ. replace (Z.succ (Zpos (digits2_pos p)) - 1) with (Z.succ (Zpos (digits2_pos p) - 1)) by lia.
    rewrite !Z.pow_succ_r by lia. lia.
  - rewrite Pos2Z.inj_succ. replace (Z.succ (Zpos (digits2_pos p)) - 1) with (Z.succ (Zpos (digits2_pos p) - 1)) by lia.
    rewrite !Z.pow_succ_r by lia. lia.
Qed.

Lemma pos_iter_xO m d : Zpos (Pos.iter xO m d) = Zpos m * 2 ^ Zpos d.
Proof.
  apply (Pos.iter_ind _ xO m (λ p a, Zpos a = Zpos m * 2 ^ Zpos p)).
  - lia.
  - intros p a Ha. rewrite Pos2Z.inj_succ, Z.pow_succ_r by lia. lia.
Qed.

Lemma shl_align_spec m e e' :
  shl_align m e e' =
    if e' <? e then (Pos.iter xO m (Z.to_pos (e - e')), e') else (m, e).
Proof.
  unfold shl_align. destruct (Z.ltb_spec e' e) as [Hlt|Hge].
  - destruct (e' - e) as [|d|d] eqn:Hd; try lia.
    do 2 f_equal. lia.
  - destruct (e' - e) as [|d|d] eqn:Hd; try lia; done.
Qed.

(** What validity says of a finite value: the mantissa has 53 digits, or
    the exponent is the least one. *)
Lemma valid_finite s m e :
  valid_binary (S754_finite s m e) = true →
  emin ≤ e ≤ emax - prec ∧ Zpos m < 2 ^ 53 ∧ (emin < e → 2 ^ 52 ≤ Zpos m).
Proof.
  unfold valid_binary, bounded, canonical_mantissa, fexp.
  intros [Hc%Z.eqb_eq He%Z.leb_le]%andb_true_iff.
  pose proof (digits2_pos_bounds m) as Hd.
  change (SpecFloat.emin prec emax) with (-1074) in *. change prec with 53 in *.
  change emax with 1024 in *.
  assert (Hcase : Zpos (digits2_pos m) = 53 ∨ (Zpos (digits2_pos m) < 53 ∧ e = -1074)) by lia.
  split; [lia|].
  destruct Hcase as [H53|[Hlt He']].
  - rewrite H53 in Hd. simpl in Hd. lia.
  - split; [|lia].
    assert (2 ^ Zpos (digits2_pos m) ≤ 2 ^ 52) by (apply Z.pow_le_mono_r; lia).
    lia.
Qed.

(** [1 <= c] leaves nothing to whiten: [1 - c] is not above zero. *)
Lemma SFsub_one_not_pos x :
  valid_binary x = true → SFleb one_sf x = true →
  SFltb (S754_zero false) (SF64sub one_sf x) = false.
Proof.
  intros Hv Hle. destruct x as [s|s| |s m e]; try done.
  - by destruct s.
  - destruct s; [done|].
    destruct (valid_finite _ _ _ Hv) as (He & Hm & Hn).
    change (SpecFloat.emin prec emax) with (-1074) in *.
    unfold SFleb, SFcompare, one_sf in Hle.
    assert (Hcmp : -52 < e ∨ (e = -52 ∧ 2 ^ 52 ≤ Zpos m)).
    { revert Hle.
      destruct (Z.compare_spec (-52) e) as [Heq|Hlt|Hgt]; [|lia|discriminate].
      rewrite Pos.compare_cont_spec. cbn [Pos.switch_Eq].
      destruct (Pos.compare_spec 4503599627370496 m); try done; lia. }
    unfold SF64sub, SFsub, one_sf. rewrite !shl_align_spec.
    replace (Z.min (-52) e) with (-52) by lia.
    rewrite Z.ltb_irrefl. cbn [fst cond_Zopp].
    assert (Hneg : ∀ k : positive, 2 ^ 52 ≤ Z.pos k →
      SFltb (S754_zero false)
        (binary_normalize prec emax (4503599627370496 - Z.pos k) (-52) false)
      = false).
    { intros k Hk.
      destruct (4503599627370496 - Z.pos k) as [|p|p] eqn:Hd; [reflexivity|lia|].
      unfold binary_normalize, binary_round.
      destruct (shl_align p (-52) _) as [mz ez].
      apply binary_round_aux_neg. }
    destruct (Z.ltb_spec (-52) e); cbn [fst]; apply Hneg; [|lia].
    rewrite pos_iter_xO.
    assert (1 ≤ 2 ^ Z.pos (Z.to_pos (e - -52)))
      by (apply Z.pow_le_mono_r with (b := 0); lia).
    nia.
Qed.

Lemma one_minus_not_pos (c : float) :
  (1 <=? c)%float = true → (0 <? 1 - c)%float = false.
Proof.
  rewrite leb_spec, ltb_spec, sub_spec. apply SFsub_one_not_pos, Prim2SF_valid.
Qed.

(** A finite value divided by itself is 1. *)
Lemma SFdiv_self s m e :
  SF64div (S754_finite s m e) (S754_finite s m e) = one_sf.
Proof.
  unfold SF64div, SFdiv, SFdiv_core_binary.
  replace (Zdigits2 (Z.pos m) + e - (Zdigits2 (Z.pos m) + e)) with 0 by lia.
  replace (e - e) with 0 by lia.
  change (Z.min (fexp prec emax 0) 0) with (-53). change (0 - -53) with 53.
  rewrite Z.shiftl_mul_pow2 by lia.
  destruct (Z.div_eucl (Z.pos m * 2 ^ 53) (Z.pos m)) as [q r] eqn:Hqr.
  assert (Hq : q = 2 ^ 53 ∧ r = 0).
  { pose proof (Z_div_mod (Z.pos m * 2 ^ 53) (Z.pos m) eq_refl) as Hdm.
    rewrite Hqr in Hdm. revert Hdm. generalize (2 ^ 53). intros P [Hdm Hr].
    assert (P - q = 0) by nia. lia. }
  destruct Hq as [-> ->].
  assert (Hloc : new_location (Z.pos m) 0 = loc_Exact).
  { unfold new_location. by destruct (Z.even (Z.pos m)). }
  rewrite Hloc. by destruct s.
Qed.

(** Whatever the float, dividing it by itself and scaling by 1.0 leaves
    nothing to whiten. *)
Lemma self_ratio_not_pos (f : float) :
  (0 <? 1 - (f / f) * 1)%float = false.
Proof.
  rewrite ltb_spec, sub_spec, mul_spec, div_spec.
  change (Prim2SF 1) with one_sf. change (Prim2SF 0) with (S754_zero false).
  destruct (Prim2SF f) as [s|s| |s m e]; try done.
  by rewrite SFdiv_self.
Qed.

End FloatFacts.

(** ** Rounding is monotone *)

Section Codes.

Lemma rec_code_of_loc q l : rec_code (shr_record_of_loc q l) = 4 * q + loc_code l.
Proof. unfold rec_code. destruct l as [|[]]; simpl; lia. Qed.

Lemma shr_m_of_loc q l : shr_m (shr_record_of_loc q l) = q.
Proof. by destruct l as [|[]]. Qed.

Lemma rec_code_shr_1 r :
  0 ≤ shr_m r →
  rec_code (shr_1 r) = halve (rec_code r) ∧ 0 ≤ shr_m (shr_1 r).
Proof.
  destruct r as [m rb sb]. unfold rec_code, halve. simpl. intros Hm.
  destruct m as [|[p|p|]|]; try lia; destruct rb, sb; simpl shr_m; simpl shr_r;
    simpl shr_s; cbv [orb];
    (split; [|lia]);
    repeat match goal with
    | |- context [?c mod 4 =? 0] => destruct (Z.eqb_spec (c mod 4) 0)
    end; Z.div_mod_to_equations; lia.
Qed.

Lemma rec_code_div r : rec_code r / 4 = shr_m r.
Proof.
  unfold rec_code. destruct (shr_r r), (shr_s r); Z.div_mod_to_equations; lia.
Qed.

Lemma round_nearest_even_rne r :
  round_nearest_even (shr_m r) (loc_of_shr_record r) = rne (rec_code r).
Proof.
  unfold rne. rewrite rec_code_div. unfold rec_code.
  destruct r as [m [] []]; simpl;
    repeat match goal with
    | |- context [?c <? 2] => destruct (Z.ltb_spec c 2)
    | |- context [?c =? 2] => destruct (Z.eqb_spec c 2)
    end; try done; Z.div_mod_to_equations; lia.
Qed.

Lemma rne_bounds c : c / 4 ≤ rne c ≤ c / 4 + 1.
Proof.
  unfold rne. destruct (c mod 4 <? 2), (c mod 4 =? 2), (Z.even (c / 4)); lia.
Qed.

Lemma rne_mono c1 c2 : c1 ≤ c2 → rne c1 ≤ rne c2.
Proof.
  intros Hc. pose proof (rne_bounds c1). pose proof (rne_bounds c2).
  destruct (decide (c1 / 4 = c2 / 4)) as [Heq|Hne].
  - unfold rne. rewrite <-Heq.
    destruct (Z.ltb_spec (c1 mod 4) 2), (Z.ltb_spec (c2 mod 4) 2),
      (Z.eqb_spec (c1 mod 4) 2), (Z.eqb_spec (c2 mod 4) 2),
      (Z.even (c1 / 4)); try lia; Z.div_mod_to_equations; lia.
  - assert (c1 / 4 < c2 / 4) by (Z.div_mod_to_equations; lia). lia.
Qed.

(** *** Codes of quotients *)

Lemma code_div a b : 0 ≤ a → 0 < b → code a b / 4 = a / b.
Proof.
  intros Ha Hb. unfold code.
  destruct (2 * a mod b =? 0); Z.div_mod_to_equations; nia.
Qed.

Lemma code_mono a1 a2 b : 0 ≤ a1 ≤ a2 → 0 < b → code a1 b ≤ code a2 b.
Proof.
  intros Ha Hb. unfold code.
  destruct (Z.eqb_spec (2 * a1 mod b) 0), (Z.eqb_spec (2 * a2 mod b) 0);
    Z.div_mod_to_equations; nia.
Qed.

Lemma code_scale a b c : 0 ≤ a → 0 < b → 0 < c → code (a * c) (b * c) = code a b.
Proof.
  intros Ha Hb Hc. unfold code.
  replace (2 * (a * c)) with (2 * a * c) by lia.
  rewrite Z.div_mul_cancel_r by lia.
  rewrite Z.mul_mod_distr_r by lia.
  destruct (Z.eqb_spec (2 * a mod b) 0) as [->|Hne]; [done|].
  destruct (Z.eqb_spec (2 * a mod b * c) 0); [nia|done].
Qed.

(** [2a / b] from the division of [a] by [b]. *)
Lemma double_div a b :
  0 ≤ a → 0 < b →
  (2 * (a mod b) < b ∧ 2 * a / b = 2 * (a / b) ∧ 2 * a mod b = 2 * (a mod b)) ∨
  (b ≤ 2 * (a mod b) ∧ 2 * a / b = 2 * (a / b) + 1 ∧
   2 * a mod b = 2 * (a mod b) - b).
Proof.
  intros Ha Hb. pose proof (Z.div_mod a b) as Hdm.
  pose proof (Z.mod_pos_bound a b Hb) as Hr.
  destruct (Z.lt_ge_cases (2 * (a mod b)) b) as [Hlt|Hge]; [left|right];
    (split; [done|]).
  - split; symmetry.
    + apply Z.div_unique with (r := 2 * (a mod b)); lia.
    + apply Z.mod_unique with (q := 2 * (a / b)); lia.
  - split; symmetry.
    + apply Z.div_unique with (r := 2 * (a mod b) - b); lia.
    + apply Z.mod_unique with (q := 2 * (a / b) + 1); lia.
Qed.

Lemma code_halve a b : 0 ≤ a → 0 < b → code a (2 * b) = halve (code a b).
Proof.
  intros Ha Hb. unfold halve.
  rewrite code_div by done. unfold code.
  replace (2 * a / (2 * b)) with (a / b) by (rewrite Z.div_mul_cancel_l; lia).
  replace (2 * a mod (2 * b)) with (2 * (a mod b))
    by (rewrite Z.mul_mod_distr_l; lia).
  pose proof (Z.mod_pos_bound a b Hb) as Hr.
  destruct (double_div a b Ha Hb) as [(Hlt & -> & ->)|(Hge & -> & ->)].
  - destruct (Z.eqb_spec (2 * (a mod b)) 0);
    match goal with
    | |- context [?c mod 4 =? 0] => destruct (Z.eqb_spec (c mod 4) 0)
    end; Z.div_mod_to_equations; lia.
  - destruct (Z.eqb_spec (2 * (a mod b)) 0),
      (Z.eqb_spec (2 * (a mod b) - b) 0);
    match goal with
    | |- context [?c mod 4 =? 0] => destruct (Z.eqb_spec (c mod 4) 0)
    end; Z.div_mod_to_equations; lia.
Qed.

(** The location computed from the remainder of a division is the code of
    the quotient. *)
Lemma code_new_location a b q r :
  a = b * q + r → 0 ≤ r < b → 0 ≤ a →
  4 * q + loc_code (new_location b r) = code a b.
Proof.
  intros Ha Hr Ha0.
  assert (Hq : a / b = q) by (symmetry; apply Z.div_unique with (r := r); lia).
  assert (Hm : a mod b = r) by (symmetry; apply Z.mod_unique with (q := q); lia).
  assert (Hpar : Z.even b = true ∧ (∃ k, b = 2 * k) ∨
                 Z.even b = false ∧ ∃ k, b = 2 * k + 1).
  { destruct (Z.even b) eqn:Hev; [left|right]; (split; [done|]).
    - by apply Z.even_spec.
    - apply Z.odd_spec. by rewrite <-Z.negb_even, Hev. }
  unfold code, new_location, new_location_even, new_location_odd.
  destruct (double_div a b) as [(Hlt & -> & ->)|(Hge & -> & ->)]; [lia..| |];
    rewrite Hq, Hm in *;
    destruct Hpar as [[-> [k Hk]]|[-> [k Hk]]];
    destruct (Z.eqb_spec r 0);
    repeat match goal with
    | |- context [?x =? 0] => destruct (Z.eqb_spec x 0)
    | |- context [?x ?= ?y] => destruct (Z.compare_spec x y)
    end; cbv [loc_code]; lia.
Qed.

Lemma pow2_xO p : 2 ^ Z.pos p~0 = 2 ^ Z.pos p * 2 ^ Z.pos p.
Proof. rewrite <-Z.pow_add_r by lia. f_equal. lia. Qed.

Lemma pow2_xI p : 2 ^ Z.pos p~1 = 2 * (2 ^ Z.pos p * 2 ^ Z.pos p).
Proof.
  rewrite <-Z.pow_add_r, <-Z.pow_succ_r by lia. f_equal. lia.
Qed.

Lemma pow2_pos n : 0 ≤ n → 0 < 2 ^ n.
Proof. intros. by apply Z.pow_pos_nonneg. Qed.

(** Shifting the record of a quotient to the right divides by a power of 2. *)
Lemma rec_code_iter_shr a p :
  0 ≤ a → ∀ b r, 0 < b → rec_code r = code a b → 0 ≤ shr_m r →
  rec_code (SpecFloat.iter_pos shr_1 p r) = code a (b * 2 ^ Zpos p) ∧
  0 ≤ shr_m (SpecFloat.iter_pos shr_1 p r).
Proof.
  intros Ha. induction p as [p IH|p IH|]; intros b r Hb Hr Hm;
    simpl SpecFloat.iter_pos;
    try assert (Hp : 0 < 2 ^ Z.pos p) by (apply pow2_pos; lia).
  - destruct (rec_code_shr_1 r Hm) as [H1 Hm1].
    rewrite Hr, <-code_halve in H1 by done.
    destruct (IH (2 * b) (shr_1 r)) as [H2 Hm2]; [lia|done|done|].
    destruct (IH (2 * b * 2 ^ Zpos p) (SpecFloat.iter_pos shr_1 p (shr_1 r)))
      as [H3 Hm3]; [nia|done|done|].
    split; [|done]. rewrite H3, pow2_xI. f_equal. lia.
  - destruct (IH b r) as [H2 Hm2]; [done..|].
    destruct (IH (b * 2 ^ Zpos p) (SpecFloat.iter_pos shr_1 p r)) as [H3 Hm3];
      [nia|done|done|].
    split; [|done]. rewrite H3, pow2_xO. f_equal. lia.
  - destruct (rec_code_shr_1 r Hm) as [H1 Hm1].
    rewrite Hr, <-code_halve in H1 by done. split; [|done].
    rewrite H1. f_equal. lia.
Qed.

End Codes.

Section Rounding.

Lemma fexp_eq x : fexp prec emax x = Z.max (x - 53) (-1074).
Proof. reflexivity. Qed.

Lemma Zdigits2_nonneg m : 0 ≤ Zdigits2 m.
Proof. destruct m; simpl; lia. Qed.

Lemma Zdigits2_bounds m :
  0 < m → 2 ^ (Zdigits2 m - 1) ≤ m < 2 ^ Zdigits2 m.
Proof. destruct m as [|p|p]; try lia. intros _. apply digits2_pos_bounds. Qed.

Lemma Zdigits2_le m k : 0 ≤ m < 2 ^ k → 0 ≤ k → Zdigits2 m ≤ k.
Proof.
  intros [Hm Hk] Hk0. destruct (decide (m = 0)) as [->|Hne]; [done|].
  destruct (Zdigits2_bounds m) as [Hlo _]; [lia|].
  pose proof (Zdigits2_nonneg m).
  destruct (Z.le_gt_cases (Zdigits2 m) k) as [|Hgt]; [done|].
  assert (2 ^ k ≤ 2 ^ (Zdigits2 m - 1)) by (apply Z.pow_le_mono_r; lia). lia.
Qed.

Lemma Zdigits2_ge m k : 2 ^ k ≤ m → 0 ≤ k → k + 1 ≤ Zdigits2 m.
Proof.
  intros Hm Hk. pose proof (pow2_pos k Hk).
  destruct (Zdigits2_bounds m) as [_ Hhi]; [lia|].
  destruct (Z.le_gt_cases (k + 1) (Zdigits2 m)) as [|Hgt]; [done|].
  pose proof (Zdigits2_nonneg m).
  assert (2 ^ Zdigits2 m ≤ 2 ^ k) by (apply Z.pow_le_mono_r; lia). lia.
Qed.

Lemma Zdigits2_mono m1 m2 : 0 ≤ m1 ≤ m2 → Zdigits2 m1 ≤ Zdigits2 m2.
Proof.
  intros [H1 H2]. destruct (decide (m1 = 0)) as [->|Hne].
  { apply Zdigits2_nonneg. }
  destruct (Zdigits2_bounds m1) as [Hlo _]; [lia|].
  assert (0 < Zdigits2 m1) by (destruct m1; simpl; lia).
  pose proof (Zdigits2_ge m2 (Zdigits2 m1 - 1)). lia.
Qed.

(** The mantissa kept at the target exponent has at most 53 digits, and
    exactly 53 above the least exponent. *)
Lemma kept_mantissa_bounds a b e :
  0 ≤ a → 0 < b → e ≤ target a b e →
  let t := target a b e in
  let m := rne (code a (b * 2 ^ (t - e))) in
  0 ≤ m ≤ 2 ^ 53 ∧ (-1074 < t → 2 ^ 52 ≤ m).
Proof.
  intros Ha Hb Hfine t m. subst m. fold t in Hfine.
  set (n := t - e). assert (Hn : 0 ≤ n) by (unfold n; lia).
  pose proof (pow2_pos n Hn) as Hpn.
  pose proof (rne_bounds (code a (b * 2 ^ n))) as Hr.
  rewrite code_div in Hr by nia.
  rewrite <-Z.div_div in Hr by lia.
  set (q := a / b) in *.
  assert (Hq : 0 ≤ q) by (apply Z.div_pos; lia).
  pose proof (Zdigits2_nonneg q) as Hd.
  assert (Hlt : q / 2 ^ n < 2 ^ 53).
  { apply Z.div_lt_upper_bound; [done|].
    destruct (decide (q = 0)) as [->|Hq0]; [nia|].
    destruct (Zdigits2_bounds q) as [_ Hhi]; [lia|].
    assert (2 ^ Zdigits2 q ≤ 2 ^ (n + 53)).
    { apply Z.pow_le_mono_r; [lia|]. unfold n, t, target. fold q. lia. }
    rewrite Z.pow_add_r in * by lia. lia. }
  assert (0 ≤ q / 2 ^ n) by (apply Z.div_pos; lia).
  split; [lia|]. intros Ht.
  assert (Hnd : n = Zdigits2 q - 53) by (unfold n, t, target in *; fold q in Ht |- *; lia).
  assert (Hq0 : 0 < q) by (destruct q; simpl in *; lia).
  destruct (Zdigits2_bounds q Hq0) as [Hlo _].
  assert (2 ^ 52 ≤ q / 2 ^ n); [|lia].
  apply Z.div_le_lower_bound; [done|].
  replace (Zdigits2 q - 1) with (n + 52) in Hlo by lia.
  rewrite Z.pow_add_r in Hlo by lia. lia.
Qed.

Lemma shr_nonpos mrs e n : n ≤ 0 → shr mrs e n = (mrs, e).
Proof. destruct n; [done|lia|done]. Qed.

(** The second half of [binary_round_aux]: the rounded mantissa is brought
    back to 53 digits and the exponent checked. *)
Lemma round_final m t :
  0 ≤ m ≤ 2 ^ 53 → -1074 ≤ t →
  (let '(mrs, e) := shr_fexp prec emax m t loc_Exact in
   match shr_m mrs with
   | Z0 => S754_zero false
   | Zpos p => if e <=? emax - prec then S754_finite false p e
               else S754_infinity false
   | Zneg _ => S754_nan
   end) = finish m t.
Proof.
  intros Hm Ht. unfold finish, shr_fexp. rewrite fexp_eq.
  destruct (Z.eqb_spec m (2 ^ 53)) as [->|Hne].
  - change (Zdigits2 (2 ^ 53)) with 54.
    replace (Z.max (54 + t - 53) (-1074) - t) with 1 by lia. done.
  - rewrite shr_nonpos.
    + simpl. by destruct m.
    + pose proof (Zdigits2_le m 53). lia.
Qed.

(** [binary_round_aux] on the quotient and the location of a division
    rounds the quotient. *)
Lemma round_aux_quotient a b q r e :
  0 ≤ a → 0 < b → a = b * q + r → 0 ≤ r < b → e ≤ target a b e →
  binary_round_aux prec emax false q e (new_location b r)
  = round_quotient a b e.
Proof.
  intros Ha Hb Hqr Hr Hfine.
  assert (Hq : a / b = q) by (symmetry; apply Z.div_unique with (r := r); lia).
  assert (Hq0 : 0 ≤ q) by (rewrite <-Hq; apply Z.div_pos; lia).
  pose proof (kept_mantissa_bounds a b e Ha Hb Hfine) as Hbounds.
  unfold round_quotient. cbv zeta in Hbounds.
  unfold binary_round_aux. unfold shr_fexp at 1. rewrite fexp_eq.
  assert (Ht : Z.max (Zdigits2 q + e - 53) (-1074) = target a b e)
    by (unfold target; by rewrite Hq).
  rewrite Ht. set (t := target a b e) in *.
  assert (Hrec : ∃ r1, shr (shr_record_of_loc q (new_location b r)) e (t - e)
                       = (r1, t) ∧
                       rec_code r1 = code a (b * 2 ^ (t - e))).
  { assert (Hc0 : rec_code (shr_record_of_loc q (new_location b r)) = code a b).
    { rewrite rec_code_of_loc. by apply code_new_location. }
    destruct (t - e) as [|p|p] eqn:Hn; [| |lia].
    - eexists. split; [simpl; f_equal; lia|]. by rewrite Hc0, Z.mul_1_r.
    - eexists. split; [simpl; f_equal; lia|].
      apply rec_code_iter_shr; [done..|]. by rewrite shr_m_of_loc. }
  destruct Hrec as (r1 & -> & Hr1).
  rewrite round_nearest_even_rne, Hr1.
  apply round_final; [lia|unfold t, target; lia].
Qed.

(** Digits of a quotient whose dividend is multiplied by a power of 2. *)
Lemma Zdigits2_shift_div a b j :
  0 ≤ a → 0 < b → 0 ≤ j → 0 < a / b →
  Zdigits2 (a * 2 ^ j / b) = Zdigits2 (a / b) + j.
Proof.
  intros Ha Hb Hj Hq. pose proof (pow2_pos j Hj) as Hpj.
  set (q := a / b) in *.
  destruct (Zdigits2_bounds q Hq) as [Hlo Hhi].
  assert (Hd : 0 < Zdigits2 q) by (destruct q; simpl in *; lia).
  pose proof (Z.div_mod a b) as Hdm. pose proof (Z.mod_pos_bound a b Hb) as Hr.
  fold q in Hdm.
  assert (Hlow : q * 2 ^ j ≤ a * 2 ^ j / b).
  { apply Z.div_le_lower_bound; [done|]. nia. }
  assert (Hup : a * 2 ^ j / b < (q + 1) * 2 ^ j).
  { apply Z.div_lt_upper_bound; [done|]. nia. }
  apply Z.le_antisymm.
  - apply Zdigits2_le; [|lia]. split; [nia|].
    rewrite Z.pow_add_r by lia. nia.
  - pose proof (Zdigits2_ge (a * 2 ^ j / b) (Zdigits2 q - 1 + j)) as Hge.
    rewrite Z.pow_add_r in Hge by lia.
    assert (2 ^ (Zdigits2 q - 1) * 2 ^ j ≤ a * 2 ^ j / b) by nia. lia.
Qed.

(** The rounding depends on the value only: the dividend may carry more
    of the exponent. *)
Lemma round_quotient_shift a b e j :
  0 ≤ a → 0 < b → 0 ≤ j → e ≤ target a b e →
  target (a * 2 ^ j) b (e - j) = target a b e ∧
  round_quotient (a * 2 ^ j) b (e - j) = round_quotient a b e.
Proof.
  intros Ha Hb Hj Hfine. pose proof (pow2_pos j Hj) as Hpj.
  assert (Ht : target (a * 2 ^ j) b (e - j) = target a b e).
  { unfold target in *.
    assert (Hq : 0 ≤ a / b) by (apply Z.div_pos; lia).
    destruct (decide (a / b = 0)) as [H0|Hne].
    - rewrite H0 in *. simpl Zdigits2 in *.
      assert (Hlt : a * 2 ^ j / b < 2 ^ j).
      { apply Z.div_lt_upper_bound; [done|].
        pose proof (Z.div_mod a b). pose proof (Z.mod_pos_bound a b Hb). nia. }
      assert (0 ≤ a * 2 ^ j / b) by (apply Z.div_pos; nia).
      pose proof (Zdigits2_le (a * 2 ^ j / b) j). lia.
    - rewrite Zdigits2_shift_div by lia. lia. }
  split; [done|]. unfold round_quotient. rewrite Ht.
  set (t := target a b e) in *.
  replace (t - (e - j)) with (t - e + j) by lia.
  rewrite Z.pow_add_r by lia.
  replace (b * (2 ^ (t - e) * 2 ^ j)) with (b * 2 ^ (t - e) * 2 ^ j) by lia.
  rewrite code_scale; [done|lia| |done].
  pose proof (pow2_pos (t - e)). nia.
Qed.

(** *** Order *)

(** [finish] without the carry: mantissa [m] at exponent [e]. *)
Lemma finish_no_carry m t :
  m ≠ 2 ^ 53 →
  finish m t = match m with
               | Z0 => S754_zero false
               | Zpos p => if t <=? 971 then S754_finite false p t
                           else S754_infinity false
               | Zneg _ => S754_nan
               end.
Proof. intros Hm. unfold finish. by destruct (Z.eqb_spec m (2 ^ 53)). Qed.

Lemma finish_carry t : finish (2 ^ 53) t = finish (2 ^ 52) (t + 1).
Proof. reflexivity. Qed.

Lemma SFleb_finite p1 e1 p2 e2 :
  e1 < e2 ∨ (e1 = e2 ∧ Zpos p1 ≤ Zpos p2) →
  SFleb (S754_finite false p1 e1) (S754_finite false p2 e2) = true.
Proof.
  intros Hc. unfold SFleb, SFcompare.
  destruct (Z.compare_spec e1 e2) as [Heq|Hlt|Hgt]; [|done|lia].
  rewrite Pos.compare_cont_spec. cbn [Pos.switch_Eq].
  destruct (Pos.compare_spec p1 p2); [done|done|lia].
Qed.

Lemma finish_le_no_carry m1 t1 m2 t2 :
  0 ≤ m1 < 2 ^ 53 → 0 ≤ m2 < 2 ^ 53 →
  (t1 = t2 ∧ m1 ≤ m2) ∨ (t1 < t2 ∧ 0 < m2) →
  SFleb (finish m1 t1) (finish m2 t2) = true.
Proof.
  intros H1 H2 Hc. rewrite !finish_no_carry by lia.
  destruct m1 as [|p1|p1]; [|clear H1|lia]; (destruct m2 as [|p2|p2]; [|clear H2|lia]).
  - done.
  - by destruct (t2 <=? 971).
  - lia.
  - destruct (Z.leb_spec t1 971), (Z.leb_spec t2 971); try done; try lia.
    apply SFleb_finite. lia.
Qed.

(** [finish] is monotone in the exponent first and the mantissa next, on
    the mantissas that [kept_mantissa_bounds] describes. *)
Lemma finish_le m1 t1 m2 t2 :
  0 ≤ m1 ≤ 2 ^ 53 → 0 ≤ m2 ≤ 2 ^ 53 →
  (t1 = t2 ∧ m1 ≤ m2) ∨ (t1 < t2 ∧ 2 ^ 52 ≤ m2) →
  SFleb (finish m1 t1) (finish m2 t2) = true.
Proof.
  intros H1 H2 Hcase.
  assert (H52 : 0 < 2 ^ 52 < 2 ^ 53) by done.
  destruct (decide (m1 = 2 ^ 53)) as [->|Hn1],
    (decide (m2 = 2 ^ 53)) as [->|Hn2];
    rewrite ?finish_carry; apply finish_le_no_carry; lia.
Qed.

Lemma finish_valid m t :
  0 ≤ m ≤ 2 ^ 53 → -1074 ≤ t → (-1074 < t → 2 ^ 52 ≤ m) →
  valid_binary (finish m t) = true.
Proof.
  intros Hm Ht Hn. unfold finish.
  assert (Hcanon : ∀ p e, Zpos p < 2 ^ 53 → -1074 ≤ e →
            (-1074 < e → 2 ^ 52 ≤ Zpos p) →
            canonical_mantissa prec emax p e = true).
  { intros p e Hp He Hpn. unfold canonical_mantissa. rewrite fexp_eq.
    apply Z.eqb_eq.
    pose proof (Zdigits2_le (Zpos p) 53) as Hle.
    pose proof (Zdigits2_ge (Zpos p) 52) as Hge. simpl Zdigits2 in *. lia. }
  destruct (Z.eqb_spec m (2 ^ 53)) as [->|Hne].
  - destruct (Z.leb_spec (t + 1) 971); [|done].
    unfold valid_binary, bounded. rewrite Hcanon by lia.
    apply Z.leb_le. change (emax - prec) with 971. lia.
  - destruct m as [|p|p]; [done| |lia].
    destruct (Z.leb_spec t 971); [|done].
    unfold valid_binary, bounded. rewrite Hcanon by lia.
    apply Z.leb_le. change (emax - prec) with 971. lia.
Qed.

Lemma round_quotient_valid a b e :
  0 ≤ a → 0 < b → e ≤ target a b e →
  valid_binary (round_quotient a b e) = true.
Proof.
  intros Ha Hb Hfine.
  destruct (kept_mantissa_bounds a b e Ha Hb Hfine) as [Hm Hn].
  apply finish_valid; [done| |done]. unfold target. lia.
Qed.

(** Rounding is monotone in the dividend. *)
Lemma round_quotient_mono a1 a2 b e :
  0 ≤ a1 ≤ a2 → 0 < b → e ≤ target a1 b e → e ≤ target a2 b e →
  SFleb (round_quotient a1 b e) (round_quotient a2 b e) = true.
Proof.
  intros Ha Hb Hf1 Hf2.
  destruct (kept_mantissa_bounds a1 b e) as [Hm1 Hn1]; [lia|done|done|].
  destruct (kept_mantissa_bounds a2 b e) as [Hm2 Hn2]; [lia|done|done|].
  assert (Ht : target a1 b e ≤ target a2 b e).
  { unfold target.
    assert (Zdigits2 (a1 / b) ≤ Zdigits2 (a2 / b)); [|lia].
    apply Zdigits2_mono. split; [apply Z.div_pos; lia|].
    apply Z.div_le_mono; lia. }
  apply finish_le; [done|done|].
  destruct (decide (target a1 b e = target a2 b e)) as [Heq|Hne].
  - left. split; [done|]. rewrite Heq. apply rne_mono, code_mono; [lia|].
    pose proof (pow2_pos (target a2 b e - e)). nia.
  - right. split; [lia|]. apply Hn2. unfold target in *. lia.
Qed.

(** The same when the two quotients come with different exponents. *)
Lemma round_quotient_le a1 e1 a2 e2 b e :
  0 ≤ a1 → 0 ≤ a2 → 0 < b →
  e1 ≤ target a1 b e1 → e2 ≤ target a2 b e2 →
  e ≤ e1 → e ≤ e2 → a1 * 2 ^ (e1 - e) ≤ a2 * 2 ^ (e2 - e) →
  SFleb (round_quotient a1 b e1) (round_quotient a2 b e2) = true.
Proof.
  intros Ha1 Ha2 Hb Hf1 Hf2 He1 He2 Hle.
  destruct (round_quotient_shift a1 b e1 (e1 - e)) as [Ht1 <-]; [lia..|done|].
  destruct (round_quotient_shift a2 b e2 (e2 - e)) as [Ht2 <-]; [lia..|done|].
  replace (e1 - (e1 - e)) with e in * by lia.
  replace (e2 - (e2 - e)) with e in * by lia.
  pose proof (pow2_pos (e1 - e)). pose proof (pow2_pos (e2 - e)).
  apply round_quotient_mono; [nia|done|lia|lia].
Qed.

(** *** The operations as roundings of quotients *)

Lemma SFmul_round mx ex my ey :
  valid_binary (S754_finite false mx ex) = true →
  valid_binary (S754_finite false my ey) = true →
  ex + ey ≤ target (Zpos mx * Zpos my) 1 (ex + ey) ∧
  SF64mul (S754_finite false mx ex) (S754_finite false my ey)
  = round_quotient (Zpos mx * Zpos my) 1 (ex + ey).
Proof.
  intros [Hex [Hmx Hnx]]%valid_finite [Hey [Hmy Hny]]%valid_finite.
  change (SpecFloat.emin prec emax) with (-1074) in *.
  assert (Hfine : ex + ey ≤ target (Zpos mx * Zpos my) 1 (ex + ey)).
  { unfold target. rewrite Z.div_1_r.
    destruct (decide (ex = -1074 ∧ ey = -1074)) as [[-> ->]|Hn]; [lia|].
    assert (2 ^ 52 ≤ Zpos mx * Zpos my) by nia.
    pose proof (Zdigits2_ge (Zpos mx * Zpos my) 52). lia. }
  split; [done|].
  unfold SF64mul, SFmul. cbn [xorb].
  change loc_Exact with (new_location 1 0).
  apply round_aux_quotient; [lia|lia|lia|lia|done].
Qed.

Lemma SFdiv_round mx ex my ey :
  let e := Z.min (Z.max (Zdigits2 (Zpos mx) + ex - (Zdigits2 (Zpos my) + ey) - 53)
                    (-1074)) (ex - ey) in
  let a := Zpos mx * 2 ^ (ex - ey - e) in
  e ≤ target a (Zpos my) e ∧
  SF64div (S754_finite false mx ex) (S754_finite false my ey)
  = round_quotient a (Zpos my) e.
Proof.
  intros e a.
  set (s := ex - ey - e). assert (Hs : 0 ≤ s) by (unfold s, e; lia).
  pose proof (pow2_pos s Hs) as Hps.
  assert (Hfine : e ≤ target a (Zpos my) e).
  { unfold target. destruct (Z.le_gt_cases e (-1074)) as [|Hgt]; [lia|].
    assert (2 ^ 52 ≤ a / Zpos my).
    { apply Z.div_le_lower_bound; [lia|].
      destruct (Zdigits2_bounds (Zpos mx)) as [Hlo _]; [lia|].
      destruct (Zdigits2_bounds (Zpos my)) as [_ Hhi]; [lia|].
      pose proof (Zdigits2_nonneg (Zpos my)).
      assert (0 < Zdigits2 (Zpos mx)) by (simpl; lia).
      assert (Hexp : 52 + Zdigits2 (Zpos my) ≤ Zdigits2 (Zpos mx) - 1 + s)
        by (unfold s, e in *; lia).
      assert (2 ^ (52 + Zdigits2 (Zpos my)) ≤ 2 ^ (Zdigits2 (Zpos mx) - 1 + s))
        by (apply Z.pow_le_mono_r; lia).
      rewrite !Z.pow_add_r in * by lia. unfold a. fold s. nia. }
    pose proof (Zdigits2_ge (a / Zpos my) 52). lia. }
  split; [done|].
  unfold SF64div, SFdiv, SFdiv_core_binary. cbn [xorb].
  rewrite fexp_eq. fold e. fold s.
  replace (match s with
           | 0 => Z.pos mx
           | Z.pos _ => Z.shiftl (Z.pos mx) s
           | Z.neg _ => 0
           end) with a.
  2:{ unfold a. fold s. destruct s as [|p|p] eqn:Hsp; [lia| |lia].
      by rewrite Z.shiftl_mul_pow2. }
  pose proof (Z_div_mod a (Zpos my) eq_refl) as Hdm.
  destruct (Z.div_eucl a (Z.pos my)) as [q r]. destruct Hdm as [Hqr Hr].
  apply round_aux_quotient; [unfold a; nia|lia|done|done|done].
Qed.

Lemma binary_normalize_round w :
  0 < w →
  let k := Z.max 0 (53 - Zdigits2 w) in
  - k ≤ target (w * 2 ^ k) 1 (- k) ∧
  binary_normalize prec emax w 0 false = round_quotient (w * 2 ^ k) 1 (- k).
Proof.
  intros Hw k. destruct w as [|p|p]; try lia.
  pose proof (pow2_pos k) as Hpk.
  assert (Hd : 0 < Zdigits2 (Zpos p)) by (simpl; lia).
  assert (Hdk : Zdigits2 (Zpos p * 2 ^ k) = Zdigits2 (Zpos p) + k).
  { pose proof (Zdigits2_shift_div (Zpos p) 1 k) as Hsh.
    rewrite !Z.div_1_r in Hsh. apply Hsh; lia. }
  assert (Hfine : - k ≤ target (Zpos p * 2 ^ k) 1 (- k)).
  { unfold target. rewrite Z.div_1_r, Hdk. lia. }
  split; [done|].
  unfold binary_normalize, binary_round. rewrite shl_align_spec, fexp_eq.
  change (Z.pos (digits2_pos p)) with (Zdigits2 (Zpos p)).
  destruct (Z.ltb_spec (Z.max (Zdigits2 (Z.pos p) + 0 - 53) (-1074)) 0) as [Hlt|Hge].
  - rewrite pos_iter_xO.
    replace (Z.pos (Z.to_pos (0 - Z.max (Zdigits2 (Z.pos p) + 0 - 53) (-1074))))
      with k by lia.
    replace (Z.max (Zdigits2 (Z.pos p) + 0 - 53) (-1074)) with (- k) by lia.
    change loc_Exact with (new_location 1 0).
    apply round_aux_quotient; [lia|lia|lia|lia|done].
  - replace k with 0 in * by lia. rewrite Z.mul_1_r in *.
    change loc_Exact with (new_location 1 0).
    apply round_aux_quotient; [lia|lia|lia|lia|done].
Qed.

(** *** Shapes of the results *)

Lemma finish_cases m t :
  0 ≤ m ≤ 2 ^ 53 →
  (m = 0 ∧ finish m t = S754_zero false) ∨
  (0 < m ∧ ((∃ p e, finish m t = S754_finite false p e) ∨
            finish m t = S754_infinity false)).
Proof.
  intros Hm. unfold finish. destruct (Z.eqb_spec m (2 ^ 53)) as [->|Hne].
  - right. split; [done|]. destruct (t + 1 <=? 971); eauto.
  - destruct m as [|p|p]; [by left| |lia].
    right. split; [done|]. destruct (t <=? 971); eauto.
Qed.

(** A quotient that is at least the least positive float does not round
    to zero. *)
Lemma round_quotient_pos a b e :
  0 ≤ a → 0 < b → e ≤ target a b e → b * 2 ^ (-1074 - e) ≤ a →
  (∃ p e', round_quotient a b e = S754_finite false p e') ∨
  round_quotient a b e = S754_infinity false.
Proof.
  intros Ha Hb Hfine Hge.
  destruct (kept_mantissa_bounds a b e Ha Hb Hfine) as [Hm Hn].
  cbv zeta in Hm, Hn.
  destruct (finish_cases _ (target a b e) Hm) as [[H0 _]|[_ ?]]; [|done].
  exfalso.
  pose proof (rne_bounds (code a (b * 2 ^ (target a b e - e)))) as Hr.
  pose proof (pow2_pos (target a b e - e)) as Hp.
  rewrite code_div in Hr by nia.
  destruct (decide (target a b e = -1074)) as [Heq|Hne].
  - rewrite Heq in *.
    assert (1 ≤ a / (b * 2 ^ (-1074 - e))); [|lia].
    apply Z.div_le_lower_bound; [nia|lia].
  - assert (-1074 < target a b e) by (unfold target in *; lia).
    assert (0 < 2 ^ 52) by done. lia.
Qed.

(** *** Order of the operands and of the results *)

Lemma SFleb_one_exp m e :
  SFleb one_sf (S754_finite false m e) = true → -52 ≤ e.
Proof.
  unfold SFleb, SFcompare, one_sf.
  destruct (Z.compare_spec (-52) e); [lia|lia|done].
Qed.

(** The order of two valid positive floats is the order of their values. *)
Lemma SFleb_values m1 e1 m2 e2 e :
  valid_binary (S754_finite false m1 e1) = true →
  valid_binary (S754_finite false m2 e2) = true →
  SFleb (S754_finite false m1 e1) (S754_finite false m2 e2) = true →
  e ≤ e1 → e ≤ e2 →
  Zpos m1 * 2 ^ (e1 - e) ≤ Zpos m2 * 2 ^ (e2 - e).
Proof.
  intros [Hx1 [Hm1 Hn1]]%valid_finite [Hx2 [Hm2 Hn2]]%valid_finite Hle He1 He2.
  change (SpecFloat.emin prec emax) with (-1074) in *.
  pose proof (pow2_pos (e1 - e)) as Hp1.
  unfold SFleb, SFcompare in Hle. revert Hle.
  destruct (Z.compare_spec e1 e2) as [->|Hlt|Hgt]; [| |done].
  - rewrite Pos.compare_cont_spec. cbn [Pos.switch_Eq].
    destruct (Pos.compare_spec m1 m2); [nia|nia|done].
  - intros _. replace (e2 - e) with ((e2 - e1 - 1) + 1 + (e1 - e)) by lia.
    rewrite !Z.pow_add_r by lia.
    assert (Hq : 0 < 2 ^ (e2 - e1 - 1)) by (apply pow2_pos; lia).
    assert (Hp : 0 < 2 ^ (e1 - e)) by (apply pow2_pos; lia).
    change (2 ^ 1) with 2.
    assert (H53 : 2 ^ 53 = 2 * 2 ^ 52) by done.
    specialize (Hn2 ltac:(lia)).
    revert Hq Hp Hm1 Hn2 H53.
    generalize (2 ^ (e2 - e1 - 1)) (2 ^ (e1 - e)) (2 ^ 52) (2 ^ 53).
    intros Q P X Y HQ HP Hm1 Hn2 ->.
    assert (Z.pos m1 * P ≤ 2 * Z.pos m2 * P) by nia.
    assert (0 ≤ Z.pos m2 * P) by nia. nia.
Qed.

Lemma SF64div_mono m1 e1 m2 e2 my ey :
  valid_binary (S754_finite false m1 e1) = true →
  valid_binary (S754_finite false m2 e2) = true →
  SFleb (S754_finite false m1 e1) (S754_finite false m2 e2) = true →
  SFleb (SF64div (S754_finite false m1 e1) (S754_finite false my ey))
        (SF64div (S754_finite false m2 e2) (S754_finite false my ey)) = true.
Proof.
  intros Hv1 Hv2 Hle.
  destruct (SFdiv_round m1 e1 my ey) as [Hf1 ->].
  destruct (SFdiv_round m2 e2 my ey) as [Hf2 ->].
  set (d1 := Z.min _ (e1 - ey)) in *. set (d2 := Z.min _ (e2 - ey)) in *.
  assert (Hd1 : d1 ≤ e1 - ey) by (unfold d1; lia).
  assert (Hd2 : d2 ≤ e2 - ey) by (unfold d2; lia).
  pose proof (pow2_pos (e1 - ey - d1)). pose proof (pow2_pos (e2 - ey - d2)).
  apply (round_quotient_le _ _ _ _ _ (Z.min d1 d2)); [nia|nia|lia|done|done|lia|lia|].
  rewrite <-!Z.mul_assoc, <-!Z.pow_add_r by lia.
  replace (e1 - ey - d1 + (d1 - Z.min d1 d2)) with (e1 - (ey + Z.min d1 d2)) by lia.
  replace (e2 - ey - d2 + (d2 - Z.min d1 d2)) with (e2 - (ey + Z.min d1 d2)) by lia.
  apply SFleb_values; [done|done|done|lia|lia].
Qed.

Lemma SF64mul_mono m1 e1 m2 e2 my ey :
  valid_binary (S754_finite false m1 e1) = true →
  valid_binary (S754_finite false m2 e2) = true →
  valid_binary (S754_finite false my ey) = true →
  SFleb (S754_finite false m1 e1) (S754_finite false m2 e2) = true →
  SFleb (SF64mul (S754_finite false m1 e1) (S754_finite false my ey))
        (SF64mul (S754_finite false m2 e2) (S754_finite false my ey)) = true.
Proof.
  intros Hv1 Hv2 Hvy Hle.
  destruct (SFmul_round m1 e1 my ey Hv1 Hvy) as [Hf1 ->].
  destruct (SFmul_round m2 e2 my ey Hv2 Hvy) as [Hf2 ->].
  apply (round_quotient_le _ _ _ _ _ (Z.min e1 e2 + ey)); [lia|lia|lia|done|done|lia|lia|].
  replace (e1 + ey - (Z.min e1 e2 + ey)) with (e1 - Z.min e1 e2) by lia.
  replace (e2 + ey - (Z.min e1 e2 + ey)) with (e2 - Z.min e1 e2) by lia.
  pose proof (SFleb_values m1 e1 m2 e2 (Z.min e1 e2) Hv1 Hv2 Hle). nia.
Qed.

Lemma binary_normalize_mono w1 w2 :
  0 < w1 ≤ w2 →
  SFleb (binary_normalize prec emax w1 0 false)
        (binary_normalize prec emax w2 0 false) = true.
Proof.
  intros Hw.
  destruct (binary_normalize_round w1) as [Hf1 ->]; [lia|].
  destruct (binary_normalize_round w2) as [Hf2 ->]; [lia|].
  set (k1 := Z.max 0 (53 - Zdigits2 w1)) in *.
  set (k2 := Z.max 0 (53 - Zdigits2 w2)) in *.
  pose proof (pow2_pos k1). pose proof (pow2_pos k2).
  apply (round_quotient_le _ _ _ _ _ (- Z.max k1 k2)); [nia|nia|lia|done|done|lia|lia|].
  rewrite <-!Z.mul_assoc, <-!Z.pow_add_r by lia.
  replace (k1 + (- k1 - - Z.max k1 k2)) with (Z.max k1 k2) by lia.
  replace (k2 + (- k2 - - Z.max k1 k2)) with (Z.max k1 k2) by lia.
  pose proof (pow2_pos (Z.max k1 k2)). nia.
Qed.

End Rounding.

Section Opacity.

Lemma float_of_int_pos w f :
  0 < w → float_of_int w = inr f →
  ∃ m e, Prim2SF f = S754_finite false m e ∧
         binary_normalize prec emax w 0 false = S754_finite false m e.
Proof.
  intros Hw. unfold float_of_int.
  destruct (binary_normalize_round w Hw) as [Hfine Hbn].
  set (k := Z.max 0 (53 - Zdigits2 w)) in *.
  assert (Hpk : 0 < 2 ^ k) by (apply pow2_pos; lia).
  pose proof (round_quotient_valid (w * 2 ^ k) 1 (- k)) as Hvalid.
  destruct (round_quotient_pos (w * 2 ^ k) 1 (- k)) as [(p & e & Hr)|Hr];
    [nia|lia|done| | |].
  - pose proof (Zdigits2_nonneg w). rewrite Z.pow_neg_r by lia. nia.
  - rewrite Hbn, Hr. intros [= <-]. exists p, e. split; [|done].
    apply (Prim2SF_SF2Prim (S754_finite false p e)).
    rewrite <-Hr. apply Hvalid; [nia|lia|done].
  - by rewrite Hbn, Hr.
Qed.

Lemma opacity_inr w m scale c :
  opacity w m scale = inr c →
  ∃ fw fm, float_of_int w = inr fw ∧ float_of_int m = inr fm ∧
           c = (fw / fm * scale)%float.
Proof.
  unfold opacity, float_div_int.
  destruct (float_of_int w) as [|fw]; [done|].
  destruct (float_of_int m) as [|fm]; [done|].
  destruct (fm =? 0)%float; [done|]. intros [= <-]. eauto.
Qed.

(** A quotient of a float that is at least 1 by a finite float is not
    zero. *)
Lemma SF64div_pos m1 e1 my ey :
  valid_binary (S754_finite false m1 e1) = true →
  valid_binary (S754_finite false my ey) = true →
  -52 ≤ e1 →
  (∃ p e, SF64div (S754_finite false m1 e1) (S754_finite false my ey)
          = S754_finite false p e) ∨
  SF64div (S754_finite false m1 e1) (S754_finite false my ey)
  = S754_infinity false.
Proof.
  intros [Hx1 [Hm1 Hn1]]%valid_finite [Hxy [Hmy Hny]]%valid_finite He1.
  change (SpecFloat.emin prec emax) with (-1074) in *.
  change (emax - prec) with 971 in *.
  destruct (SFdiv_round m1 e1 my ey) as [Hf ->].
  set (d := Z.min _ (e1 - ey)) in *.
  assert (Hd : d ≤ e1 - ey) by (unfold d; lia).
  assert (Hp : 0 < 2 ^ (e1 - ey - d)) by (apply pow2_pos; lia).
  apply round_quotient_pos; [nia|lia|done|].
  destruct (Z.lt_ge_cases (-1074 - d) 0) as [Hneg|Hpos].
  { rewrite Z.pow_neg_r by lia. nia. }
  replace (e1 - ey - d) with ((e1 - ey + 1074) + (-1074 - d)) by lia.
  rewrite Z.pow_add_r by lia.
  assert (Hq : 0 < 2 ^ (-1074 - d)) by (apply pow2_pos; lia).
  assert (Hbig : 2 ^ 1 ≤ 2 ^ (e1 - ey + 1074)) by (apply Z.pow_le_mono_r; lia).
  specialize (Hn1 ltac:(lia)).
  assert (H53 : 2 ^ 53 = 2 * 2 ^ 52) by done. change (2 ^ 1) with 2 in Hbig.
  revert Hq Hbig Hm1 Hmy Hn1 H53.
  generalize (2 ^ (-1074 - d)) (2 ^ (e1 - ey + 1074)) (2 ^ 52) (2 ^ 53).
  intros P Q X Y HP HQ Hm1 Hmy Hn1 ->.
  assert (Z.pos my * P ≤ 2 * X * P) by nia.
  assert (2 * X * P ≤ Z.pos m1 * 2 * P) by nia.
  assert (0 ≤ Z.pos m1 * P) by nia. nia.
Qed.

(** The quotient of the floats of two counts [w <= m]: a positive finite
    float that is at most 1, and grows with [w]. *)
Lemma ratio_shape w m fw fm :
  1 ≤ w ≤ m → float_of_int w = inr fw → float_of_int m = inr fm →
  ∃ p g, Prim2SF (fw / fm) = S754_finite false p g ∧
         SFleb (S754_finite false p g) one_sf = true.
Proof.
  intros Hw Hfw Hfm.
  destruct (float_of_int_pos w fw) as (mw & ew & HXw & Hbw); [lia|done|].
  destruct (float_of_int_pos m fm) as (mm & em & HXm & Hbm); [lia|done|].
  pose proof (Prim2SF_valid fw) as Hvw. rewrite HXw in Hvw.
  pose proof (Prim2SF_valid fm) as Hvm. rewrite HXm in Hvm.
  assert (Hwm : SFleb (S754_finite false mw ew) (S754_finite false mm em) = true).
  { rewrite <-Hbw, <-Hbm. apply binary_normalize_mono. lia. }
  assert (H1 : -52 ≤ ew).
  { apply (SFleb_one_exp mw). rewrite <-Hbw.
    change one_sf with (binary_normalize prec emax 1 0 false).
    apply binary_normalize_mono. lia. }
  rewrite div_spec, HXw, HXm.
  pose proof (SF64div_mono mw ew mm em mm em Hvw Hvm Hwm) as Hle.
  rewrite SFdiv_self in Hle.
  destruct (SF64div_pos mw ew mm em Hvw Hvm H1) as [(p & g & Hq)|Hq];
    rewrite Hq in *; [eauto|done].
Qed.

Lemma ratio_mono w1 w2 m f1 f2 fm :
  1 ≤ w1 ≤ w2 →
  float_of_int w1 = inr f1 → float_of_int w2 = inr f2 →
  float_of_int m = inr fm → 0 < m →
  SFleb (Prim2SF (f1 / fm)) (Prim2SF (f2 / fm)) = true.
Proof.
  intros Hw Hf1 Hf2 Hfm Hm.
  destruct (float_of_int_pos w1 f1) as (m1 & e1 & HX1 & Hb1); [lia|done|].
  destruct (float_of_int_pos w2 f2) as (m2 & e2 & HX2 & Hb2); [lia|done|].
  destruct (float_of_int_pos m fm) as (mm & em & HXm & Hbm); [lia|done|].
  pose proof (Prim2SF_valid f1) as Hv1. rewrite HX1 in Hv1.
  pose proof (Prim2SF_valid f2) as Hv2. rewrite HX2 in Hv2.
  rewrite !div_spec, HX1, HX2, HXm. apply SF64div_mono; [done..|].
  rewrite <-Hb1, <-Hb2. apply binary_normalize_mono. lia.
Qed.

(** Scaling two positive finite floats by a scale that is at least zero
    keeps their order. *)
Lemma scale_mono (q1 q2 scale : float) p1 g1 p2 g2 :
  Prim2SF q1 = S754_finite false p1 g1 →
  Prim2SF q2 = S754_finite false p2 g2 →
  SFleb (Prim2SF q1) (Prim2SF q2) = true →
  (0 <=? scale)%float = true →
  (q1 * scale <=? q2 * scale)%float = true.
Proof.
  intros H1 H2 Hle Hs.
  pose proof (Prim2SF_valid q1) as Hv1. pose proof (Prim2SF_valid q2) as Hv2.
  pose proof (Prim2SF_valid scale) as Hvs.
  rewrite leb_spec in Hs. change (Prim2SF 0) with (S754_zero false) in Hs.
  rewrite leb_spec, !mul_spec. rewrite H1, H2 in *.
  destruct (Prim2SF scale) as [sg|[]| |[] ms es]; try done.
  by apply SF64mul_mono.
Qed.

End Opacity.

(** * The claims *)

(** C2. At every step of the aggregation loop, that is after any number of
    lines, every count is at least 1 and at most [maxRepetitions],
    [maxRepetitions] is the maximum of the counts, and once a line has been
    read some location has exactly that count. *)
Theorem aggregate_counts_and_maximum (lines : list string) (n : nat) :
  let uniqueLocations := (aggregate (take n lines)).1 in
  let maxRepetitions := (aggregate (take n lines)).2 in
  (∀ location count, uniqueLocations !! location = Some count →
     1 ≤ count ≤ maxRepetitions) ∧
  maxRepetitions = max_count uniqueLocations ∧
  (take n lines ≠ [] →
     ∃ location, uniqueLocations !! location = Some maxRepetitions).
Proof.
  intros d m. subst d m.
  destruct (aggregate_inv_holds (take n lines)) as (Hpos & Hub & Hmax & Hatt).
  split_and!; [|done|].
  - intros location count Hl. split; [apply (Hpos _ _ Hl)|by apply (Hub location)].
  - intros Hne. by apply Hatt, aggregate_nonempty.
Qed.

(** C7. The counts of the aggregated mapping add up to the number of lines
    of the event file. *)
Theorem sum_of_counts_is_line_count (lines : list string) :
  sum_counts (aggregate lines).1 = Z.of_nat (length lines).
Proof.
  induction lines as [|location lines IH] using rev_ind.
  - apply sum_counts_empty.
  - rewrite aggregate_snoc, length_app. simpl.
    destruct (aggregate lines) as [d m]. rewrite count_line_spec. simpl in *.
    destruct (d !! location) as [c|] eqn:Hc; simpl.
    + rewrite (sum_counts_update _ _ c) by done. lia.
    + rewrite sum_counts_insert by done. lia.
Qed.

(** C3. A location whose two first fields read as the integers [x] and [y]
    is placed, on a canvas of height [H], at [px = x / 2 - 32] and
    [py = (H - y / 2) - 32], where [/] rounds towards minus infinity and 32
    is half the side of the spot: the coordinates are halved, and the
    ordinate is counted from the bottom of the canvas. *)
Theorem placement_halves_and_flips (canvas_size_y location xy0 xy1 : string)
    (rest : list string) (x y H : Z) :
  split "," location = xy0 :: xy1 :: rest →
  int xy0 = inr x → int xy1 = inr y → int canvas_size_y = inr H →
  ∃ px py, placement canvas_size_y location = inr (px, py) ∧
    px = x / 2 - 32 ∧ py = (H - y / 2) - 32 ∧
    2 * (px + 32) ≤ x < 2 * (px + 32) + 2 ∧
    2 * (H - 32 - py) ≤ y < 2 * (H - 32 - py) + 2.
Proof.
  intros Hs Hx Hy Hh. exists (x / 2 - 32), ((H - y / 2) - 32).
  unfold placement. rewrite Hs. simpl. rewrite Hx, Hh, Hy.
  pose proof (Z.div_mod x 2). pose proof (Z.mod_pos_bound x 2).
  pose proof (Z.div_mod y 2). pose proof (Z.mod_pos_bound y 2).
  split_and!; try done; lia.
Qed.

Lemma placement_halves_and_flips_witness :
  ∃ px py, placement "100" ("10,-7" +:+ newline) = inr (px, py) ∧
    px = 10 / 2 - 32 ∧ py = (100 - (-7) / 2) - 32 ∧
    2 * (px + 32) ≤ 10 < 2 * (px + 32) + 2 ∧
    2 * (100 - 32 - py) ≤ -7 < 2 * (100 - 32 - py) + 2.
Proof.
  apply (placement_halves_and_flips "100" ("10,-7" +:+ newline)
           "10" ("-7" +:+ newline) [] 10 (-7) 100); reflexivity.
Defined.

(** C4, as the claim has it: the line "1.5,-2.25" is not parsed; [int]
    raises a [ValueError] on its first field. *)
Lemma fractional_coordinates_rejected :
  placement "100" ("1.5,-2.25" +:+ newline) = inl ValueError.
Proof. reflexivity. Qed.

(** C4, amended. A line [x,y] whose coordinates are decimal integers with an
    optional sign is parsed, and placed as C3 says; a field holding a
    decimal point makes [int] raise a [ValueError]. *)
Theorem signed_integer_coordinates_parse (canvas_size_y sx sy : string) (H : Z) :
  signed_decimal sx = true → signed_decimal sy = true →
  int canvas_size_y = inr H →
  (∃ x y, int sx = inr x ∧ int (sy +:+ newline) = inr y ∧
     placement canvas_size_y (sx +:+ "," +:+ sy +:+ newline)
     = inr (x / 2 - 32, (H - y / 2) - 32)) ∧
  (∀ field, "."%char ∈ chars field → int field = inl ValueError).
Proof.
  intros Hx Hy Hh. split; [|apply int_dot].
  destruct (signed_decimal_int sx Hx) as [x Hsx].
  destruct (signed_decimal_int sy Hy) as [y Hsy].
  exists x, y. rewrite int_app_newline. split_and!; [done..|].
  assert (Hnc : ∀ s, signed_decimal s = true → ","%char ∉ chars s).
  { intros s Hs Hin.
    by destruct (signed_decimal_chars s _ Hs Hin) as [[? [=]]|[[=]|[=]]]. }
  unfold placement.
  change (sx +:+ "," +:+ sy +:+ newline) with (sx +:+ String "," (sy +:+ newline)).
  rewrite split_at_sep by auto.
  rewrite split_no_sep.
  2:{ rewrite chars_app, elem_of_app. intros [Hin|Hin]; [by apply (Hnc sy)|].
      by apply list_elem_of_singleton in Hin. }
  simpl. by rewrite Hsx, Hh, int_app_newline, Hsy.
Qed.

Lemma signed_integer_coordinates_parse_witness :
  (∃ x y, int "-11" = inr x ∧ int ("+7" +:+ newline) = inr y ∧
     placement "100" ("-11" +:+ "," +:+ "+7" +:+ newline)
     = inr (x / 2 - 32, (100 - y / 2) - 32)) ∧
  (∀ field, "."%char ∈ chars field → int field = inl ValueError).
Proof.
  apply (signed_integer_coordinates_parse "100" "-11" "+7" 100); reflexivity.
Defined.

(** C6. With an empty event file the aggregation leaves the mapping empty
    and [maxRepetitions] at 0, the loop over the locations has no iteration,
    and the run is the straight sequence of the commands around the loop:
    nothing is divided by [maxRepetitions], and the run does not end with a
    [ZeroDivisionError]. *)
Theorem empty_event_file_divides_nothing `{Host}
    (event_file level_image canvas_size_x canvas_size_y : string)
    (scale : float) (log : list event) :
  read_file event_file = Some "" →
  aggregate (file_lines "") = (∅, 0) ∧
  dict_keys ∅ = [] ∧
  GenerateHeatMap event_file level_image canvas_size_x canvas_size_y scale log
  = (print ("Reading " +:+ event_file +:+ "...") ;;;
     Execute ["convert"; "-size"; canvas_size_x +:+ "x" +:+ canvas_size_y;
              "pattern:gray100"; "empty.miff"] ;;;
     print "0 max repetitions" ;;;
     Execute ["convert"; "empty.miff"; "-negate"; "full.miff"] ;;;
     Execute ["convert"; "full.miff"; "colors.png"; "-fx"; "v.p{0,u*v.h}";
              "final.miff"] ;;;
     Execute ["composite"; "-blend"; "40%"; "final.miff"; level_image;
              "heatmap.png"] ;;;
     print "Complete.") log ∧
  (GenerateHeatMap event_file level_image canvas_size_x canvas_size_y scale log).2
    ≠ inl ZeroDivisionError.
Proof.
  intros Hread.
  assert (Hkeys : dict_keys ∅ = []).
  { apply Permutation_nil_r. rewrite dict_keys_perm, map_to_list_empty.
    reflexivity. }
  assert (Hrun : GenerateHeatMap event_file level_image canvas_size_x
                   canvas_size_y scale log
    = (print ("Reading " +:+ event_file +:+ "...") ;;;
       Execute ["convert"; "-size"; canvas_size_x +:+ "x" +:+ canvas_size_y;
                "pattern:gray100"; "empty.miff"] ;;;
       print "0 max repetitions" ;;;
       Execute ["convert"; "empty.miff"; "-negate"; "full.miff"] ;;;
       Execute ["convert"; "full.miff"; "colors.png"; "-fx"; "v.p{0,u*v.h}";
                "final.miff"] ;;;
       Execute ["composite"; "-blend"; "40%"; "final.miff"; level_image;
                "heatmap.png"] ;;;
       print "Complete.") log).
  { unfold GenerateHeatMap, bind, lift, print. rewrite Hread.
    change (aggregate (file_lines "")) with ((∅ : gmap string Z), 0).
    cbv iota beta. rewrite Hkeys. reflexivity. }
  split_and!; [done|done|done|].
  rewrite Hrun. unfold bind, print. rewrite !Execute_spec.
  repeat (destruct (exit_status _ _) as [?|]; [|done];
          destruct (0 <? _); [done|]).
  done.
Qed.

Lemma empty_event_file_divides_nothing_witness :
  @read_file sample_host "empty.txt" = Some "" ∧
  (@GenerateHeatMap sample_host "empty.txt" "level.png" "100" "100" 1 []).2
    ≠ inl ZeroDivisionError.
Proof.
  split; [reflexivity|].
  apply (@empty_event_file_divides_nothing sample_host "empty.txt" "level.png"
           "100" "100" 1%float []). reflexivity.
Defined.

(** C8. What [main] does with its arguments: with fewer than four it exits
    with the usage message, and it exits when one of the two files does not
    exist; past these checks, four arguments leave [scale] at 1.0, while a
    fifth argument is read with [float], whose value is the scale of the
    run, and whose [ValueError] ends the run before any command is
    issued. *)
Theorem scale_defaults_to_one `{Host} (argv : list string) (log : list event) :
  main argv log
  = match argv with
    | event_file :: level_image :: canvas_size_x :: canvas_size_y :: more =>
        if negb (path_exists event_file)
        then (log, inl (SystemExit
                          ("ERROR: File " +:+ event_file +:+ " was not found!")))
        else if negb (path_exists level_image)
        then (log, inl (SystemExit
                          ("ERROR: File " +:+ level_image +:+ " was not found!")))
        else
          match more with
          | [] =>
              GenerateHeatMap event_file level_image canvas_size_x canvas_size_y
                1 log
          | scale_arg :: _ =>
              match float_of_string scale_arg with
              | Some scale =>
                  GenerateHeatMap event_file level_image canvas_size_x
                    canvas_size_y scale log
              | None => (log, inl ValueError)
              end
          end
    | _ =>
        (log, inl (SystemExit
           "Usage: process.py event_file level_file canvas_size_x canvas_size_y [scale]"))
    end.
Proof.
  destruct argv as [|a0 [|a1 [|a2 [|a3 more]]]]; try done.
  unfold main. simpl.
  destruct (path_exists a0); [|done]. destruct (path_exists a1); [|done]. simpl.
  destruct more as [|scale_arg more]; simpl; [done|].
  unfold bind, lift. by destruct (float_of_string scale_arg).
Qed.

Lemma scale_defaults_to_one_witness :
  @main sample_host ["events.txt"; "level.png"; "100"; "100"] []
  = @GenerateHeatMap sample_host "events.txt" "level.png" "100" "100" 1 [] ∧
  @main sample_host ["events.txt"; "level.png"; "100"; "100"; "0.5"] []
  = @GenerateHeatMap sample_host "events.txt" "level.png" "100" "100" 0.5 [] ∧
  @main sample_host ["events.txt"; "level.png"; "100"; "100"; "half"] []
  = ([], inl ValueError).
Proof.
  split_and!.
  - apply (@scale_defaults_to_one sample_host
             ["events.txt"; "level.png"; "100"; "100"] []).
  - apply (@scale_defaults_to_one sample_host
             ["events.txt"; "level.png"; "100"; "100"; "0.5"] []).
  - apply (@scale_defaults_to_one sample_host
             ["events.txt"; "level.png"; "100"; "100"; "half"] []).
Defined.





(** C9. An iteration for a location whose opacity
    [(weight / maxRepetitions) * scale] is at least 1 issues no command; so
    does, with [scale] at 1.0, the iteration for a location whose count is
    [maxRepetitions]: the hottest location gets no stamp. *)
Theorem saturated_location_not_stamped `{Host}
    (uniqueLocations : gmap string Z) (maxRepetitions : Z)
    (canvas_size_y : string) (scale : float) (location : string) (weight : Z) :
  uniqueLocations !! location = Some weight →
  (∀ contribution,
     opacity weight maxRepetitions scale = inr contribution →
     (1 <=? contribution)%float = true →
     expected_stamp uniqueLocations maxRepetitions canvas_size_y scale location
     = [] ∧
     ∀ ten_percent progress log,
       calls (spot uniqueLocations maxRepetitions canvas_size_y scale
                ten_percent location progress log).1 = calls log) ∧
  (weight = maxRepetitions →
     expected_stamp uniqueLocations maxRepetitions canvas_size_y 1 location
     = [] ∧
     ∀ ten_percent progress log,
       calls (spot uniqueLocations maxRepetitions canvas_size_y 1
                ten_percent location progress log).1 = calls log).
Proof.
  intros Hw.
  assert (Hquiet : ∀ s,
    expected_stamp uniqueLocations maxRepetitions canvas_size_y s location = [] →
    ∀ ten_percent progress log,
      calls (spot uniqueLocations maxRepetitions canvas_size_y s
               ten_percent location progress log).1 = calls log).
  { intros s Hs tp progress log. by rewrite spot_calls, Hs, app_nil_r. }
  split.
  - intros c Hc Hle.
    assert (Hs : expected_stamp uniqueLocations maxRepetitions canvas_size_y
                   scale location = []).
    { unfold expected_stamp, dict_get, whitening.
      destruct (placement canvas_size_y location); [done|].
      rewrite Hw, Hc. by rewrite one_minus_not_pos. }
    split; [done|by apply Hquiet].
  - intros ->.
    assert (Hs : expected_stamp uniqueLocations maxRepetitions canvas_size_y
                   1 location = []).
    { unfold expected_stamp, dict_get, whitening, opacity, float_div_int.
      destruct (placement canvas_size_y location); [done|].
      rewrite Hw.
      destruct (float_of_int maxRepetitions) as [e|f]; [done|].
      destruct (f =? 0)%float; [done|].
      by rewrite self_ratio_not_pos. }
    split; [done|by apply Hquiet].
Qed.

Lemma saturated_location_not_stamped_witness :
  @expected_stamp sample_host (aggregate (file_lines sample_events)).1 3 "100"
    3 ("50,50" +:+ newline) = [] ∧
  @expected_stamp sample_host (aggregate (file_lines sample_events)).1 3 "100"
    1 ("10,10" +:+ newline) = [].
Proof.
  split.
  - destruct (@saturated_location_not_stamped sample_host
                (aggregate (file_lines sample_events)).1 3 "100" 3%float
                ("50,50" +:+ newline) 1 eq_refl) as [Hge _].
    destruct (Hge 1%float) as [Hs _]; [reflexivity..|exact Hs].
  - destruct (@saturated_location_not_stamped sample_host
                (aggregate (file_lines sample_events)).1 3 "100" 1%float
                ("10,10" +:+ newline) 3 eq_refl) as [_ Hmax].
    destruct (Hmax eq_refl) as [Hs _]. exact Hs.
Defined.

(** C5, as the claim has it: with scale -1 and a maximum of 2, doubling the
    count from 1 to 2 takes the opacity from -0.5 down to -1. *)
Lemma opacity_decreases_when_scale_negative :
  opacity 1 2 (-1) = inr (-0.5)%float ∧
  opacity 2 2 (-1) = inr (-1)%float ∧
  (-0.5 <=? -1)%float = false.
Proof. split_and!; reflexivity. Qed.

(** C5, amended. Let [others] be the largest count among the other
    locations, so that [maxRepetitions] is the larger of it and of the count
    of the location. For a scale that is at least zero (so neither negative
    nor a NaN), the opacity [(weight / maxRepetitions) * scale] of the
    location does not decrease when its count grows, whether
    [maxRepetitions] stays the same or follows the count. *)
Theorem opacity_monotone_in_weight (w1 w2 others : Z) (scale c1 c2 : float) :
  1 ≤ w1 ≤ w2 → (0 <=? scale)%float = true →
  opacity w1 (Z.max w1 others) scale = inr c1 →
  opacity w2 (Z.max w2 others) scale = inr c2 →
  (c1 <=? c2)%float = true.
Proof.
  intros Hw Hs (f1 & fm1 & Hf1 & Hfm1 & ->)%opacity_inr
    (f2 & fm2 & Hf2 & Hfm2 & ->)%opacity_inr.
  destruct (ratio_shape w1 (Z.max w1 others) f1 fm1) as (p1 & g1 & HQ1 & Hle1);
    [lia|done|done|].
  destruct (ratio_shape w2 (Z.max w2 others) f2 fm2) as (p2 & g2 & HQ2 & Hle2);
    [lia|done|done|].
  apply (scale_mono _ _ _ p1 g1 p2 g2); [done|done| |done].
  destruct (Z.le_gt_cases w2 others) as [Hle|Hgt].
  - (* the maximum is that of the other locations, before and after *)
    replace (Z.max w1 others) with others in * by lia.
    replace (Z.max w2 others) with others in * by lia.
    rewrite Hfm1 in Hfm2. injection Hfm2 as <-.
    apply (ratio_mono w1 w2 others); [done..|lia].
  - (* the location has become the hottest: its ratio is 1 *)
    replace (Z.max w2 others) with w2 in * by lia.
    rewrite Hf2 in Hfm2. injection Hfm2 as <-.
    rewrite HQ1. rewrite div_spec in *.
    destruct (Prim2SF f2) as [sg|sg| |sg m2 e2]; try done.
    rewrite SFdiv_self. done.
Qed.

Lemma opacity_monotone_in_weight_witness :
  (0.25 <=? 0.5)%float = true.
Proof.
  apply (opacity_monotone_in_weight 1 2 3 0.75%float 0.25%float 0.5%float);
    [lia|reflexivity|reflexivity|reflexivity].
Defined.

(** * Further properties *)

(** ** The aggregator: occurrences, sizes, identical lines *)

Section MoreAggregatorFacts.
Implicit Types (d : gmap string Z) (k location : string) (lines : list string).

Lemma aggregate_max lines : (aggregate lines).2 = max_count (aggregate lines).1.
Proof. by destruct (aggregate_inv_holds lines) as (_ & _ & ? & _). Qed.

Lemma occurrences_le_length k lines : occurrences k lines ≤ Z.of_nat (length lines).
Proof. unfold occurrences. pose proof (length_filter (λ l, l = k) lines). lia. Qed.

Lemma occurrences_pos k lines : 0 < occurrences k lines ↔ k ∈ lines.
Proof.
  unfold occurrences. split.
  - intros Hpos. destruct (filter (λ l, l = k) lines) as [|x xs] eqn:Hf; [simpl in *; lia|].
    assert (Hx : x ∈ filter (λ l, l = k) lines) by (rewrite Hf; left).
    apply list_elem_of_filter in Hx as [-> ?]. done.
  - intros Hin.
    assert (Hk : k ∈ filter (λ l, l = k) lines) by (by apply list_elem_of_filter).
    destruct (filter (λ l, l = k) lines); [by apply elem_of_nil in Hk|simpl; lia].
Qed.

Lemma occurrences_perm k lines1 lines2 :
  lines1 ≡ₚ lines2 → occurrences k lines1 = occurrences k lines2.
Proof. intros Hp. unfold occurrences. by rewrite Hp. Qed.

Lemma occurrences_replicate k n : occurrences k (replicate n k) = Z.of_nat n.
Proof.
  unfold occurrences. induction n as [|n IH]; simpl; [done|].
  rewrite filter_cons_True by done. simpl. lia.
Qed.

Lemma occurrences_replicate_ne k l n : l ≠ k → occurrences k (replicate n l) = 0.
Proof.
  intros Hne. unfold occurrences. induction n as [|n IH]; simpl; [done|].
  by rewrite filter_cons_False.
Qed.

Lemma aggregate_size_le_length lines :
  (size (aggregate lines).1 ≤ length lines)%nat.
Proof.
  induction lines as [|l lines IH] using rev_ind; [done|].
  rewrite aggregate_snoc, length_app. destruct (aggregate lines) as [d m].
  rewrite count_line_spec. simpl in *. rewrite map_size_insert.
  destruct (d !! l); simpl; lia.
Qed.

Lemma aggregate_max_le_length lines :
  (aggregate lines).2 ≤ Z.of_nat (length lines).
Proof.
  destruct (aggregate_inv_holds lines) as (_ & _ & Hmax & Hatt).
  destruct (decide ((aggregate lines).1 = ∅)) as [He|Hne].
  - rewrite Hmax, He, max_count_empty. lia.
  - destruct (Hatt Hne) as [k Hk]. rewrite aggregate_lookup in Hk.
    pose proof (occurrences_le_length k lines). case_decide; [done|].
    injection Hk as Hk. lia.
Qed.

Lemma aggregate_replicate location (n : nat) :
  aggregate (replicate (S n) location)
  = ({[ location := Z.of_nat (S n) ]}, Z.of_nat (S n)).
Proof.
  assert (Hd : (aggregate (replicate (S n) location)).1
               = {[ location := Z.of_nat (S n) ]}).
  { apply map_eq. intros k. rewrite aggregate_lookup.
    destruct (decide (k = location)) as [->|Hne].
    - rewrite occurrences_replicate, lookup_singleton_eq. case_decide; [lia|done].
    - rewrite occurrences_replicate_ne, lookup_singleton_ne by done.
      by case_decide. }
  rewrite (surjective_pairing (aggregate _)), aggregate_max, Hd. f_equal.
  unfold max_count. rewrite map_fold_singleton. lia.
Qed.

Lemma aggregate_size_distinct lines :
  size (aggregate lines).1 = length (remove_dups lines).
Proof.
  rewrite <-length_map_to_list, <-(length_fmap fst).
  apply Permutation_length, NoDup_Permutation.
  - apply NoDup_fst_map_to_list.
  - apply NoDup_remove_dups.
  - intros k. rewrite elem_of_remove_dups, list_elem_of_fmap, <-occurrences_pos.
    split.
    + intros ([k' v] & -> & Hin). apply elem_of_map_to_list in Hin. simpl in *.
      rewrite aggregate_lookup in Hin. pose proof (occurrences_nonneg k' lines).
      case_decide; [done|lia].
    + intros Hpos. exists (k, occurrences k lines). split; [done|].
      apply elem_of_map_to_list. rewrite aggregate_lookup.
      case_decide; [lia|done].
Qed.

End MoreAggregatorFacts.

(** ** How a run fails *)

Section Failures.
Context `{Host}.
Implicit Types (d : gmap string Z) (e : exn) (log : list event).

Lemma read_unsigned_error negative s e :
  read_unsigned negative s = inl e → e = ValueError.
Proof.
  unfold read_unsigned. destruct (read_digits 0 0 (skip_space s)) as [[v n] rest].
  destruct n; [congruence|]. destruct (skip_space rest); congruence.
Qed.

Lemma int_error s e : int s = inl e → e = ValueError.
Proof.
  unfold int. destruct (skip_space s) as [|c s']; [apply read_unsigned_error|].
  destruct c as [[] [] [] [] [] [] [] []]; apply read_unsigned_error.
Qed.

Lemma placement_error h location e :
  placement h location = inl e → e = ValueError ∨ e = IndexError.
Proof.
  unfold placement, getitem.
  destruct (split "," location !! 0%nat) as [xy0|]; [|intros [= <-]; auto].
  destruct (int xy0) as [e0|x0] eqn:H0; [intros [= <-]; left; eauto using int_error|].
  destruct (int h) as [e0|hh] eqn:Hh; [intros [= <-]; left; eauto using int_error|].
  destruct (split "," location !! 1%nat) as [xy1|]; [|intros [= <-]; auto].
  destruct (int xy1) as [e0|y0] eqn:H1; [intros [= <-]; left; eauto using int_error|].
  done.
Qed.

Lemma float_of_int_error w e : float_of_int w = inl e → e = OverflowError.
Proof.
  unfold float_of_int. destruct (binary_normalize _ _ _ _ _); congruence.
Qed.

Lemma whitening_error w m scale e :
  1 ≤ m → whitening w m scale = inl e → e = OverflowError.
Proof.
  intros Hm. unfold whitening, opacity, float_div_int.
  destruct (float_of_int w) as [e0|fw] eqn:Hw;
    [intros [= <-]; eauto using float_of_int_error|].
  destruct (float_of_int m) as [e0|fm] eqn:Hfm;
    [intros [= <-]; eauto using float_of_int_error|].
  destruct (float_of_int_pos m fm) as (p & g & Hp & _); [lia|done|].
  assert (Hnz : (fm =? 0)%float = false).
  { rewrite FloatAxioms.eqb_spec, Hp. reflexivity. }
  by rewrite Hnz.
Qed.

(** How one iteration fails: before any command, on the placement, the
    lookup or the factor, or by the command it has just issued. *)
Lemma spot_inl d m h scale tp location progress log log' e :
  spot d m h scale tp location progress log = (log', inl e) →
  (log' = log ∧
   (placement h location = inl e ∨ dict_get d location = inl e ∨
    ∃ w, d !! location = Some w ∧ whitening w m scale = inl e)) ∨
  (∃ args, Execute args log = (log', inl e)).
Proof.
  unfold spot, bind, lift. destruct progress as [count percent].
  destruct (placement h location) as [e0|xy]; simpl; [intros [= <- <-]; auto|].
  destruct (dict_get d location) as [e0|w] eqn:Hg; simpl; [intros [= <- <-]; auto|].
  assert (Hw : d !! location = Some w).
  { unfold dict_get in Hg. destruct (d !! location); congruence. }
  destruct (whitening w m scale) as [e0|c] eqn:Hc; simpl.
  { intros [= <- <-]. left. split; [done|]. right. right. by exists w. }
  destruct (0 <? c)%float.
  - destruct (Execute _ log) as [log1 [e1|[]]] eqn:He.
    + intros [= <- <-]. right. eauto.
    + destruct (tp <? count + 1); unfold print, ret; simpl; congruence.
  - unfold ret at 1. destruct (tp <? count + 1); unfold print, ret; simpl; congruence.
Qed.

Lemma spots_inl d m h scale tp keys progress log log' e :
  spots d m h scale tp keys progress log = (log', inl e) →
  (∃ location, location ∈ keys ∧
     (placement h location = inl e ∨ dict_get d location = inl e ∨
      ∃ w, d !! location = Some w ∧ whitening w m scale = inl e)) ∨
  (∃ log0 args, Execute args log0 = (log', inl e)).
Proof.
  revert progress log. induction keys as [|location keys IH]; intros progress log.
  - done.
  - simpl. unfold bind at 1.
    destruct (spot d m h scale tp location progress log) as [log1 [e1|pr]] eqn:Hs.
    + intros [= <- <-]. apply spot_inl in Hs as [[_ Hs]|[args Hs]].
      * left. exists location. split; [left|done].
      * right. eauto.
    + intros [(l & Hin & Hl)|Hr]%IH; [left|by right].
      exists l. split; [by right|done].
Qed.

(** How a run fails: the event file cannot be read, an iteration fails on
    one of the keys before issuing a command, or a command fails. *)
Lemma GenerateHeatMap_inl event_file level_image cx cy scale log log' e :
  GenerateHeatMap event_file level_image cx cy scale log = (log', inl e) →
  (e = IOError ∧ read_file event_file = None) ∨
  (∃ content location, read_file event_file = Some content ∧
     location ∈ dict_keys (aggregate (file_lines content)).1 ∧
     (placement cy location = inl e ∨
      dict_get (aggregate (file_lines content)).1 location = inl e ∨
      ∃ w, (aggregate (file_lines content)).1 !! location = Some w ∧
           whitening w (aggregate (file_lines content)).2 scale = inl e)) ∨
  (∃ log0 args, Execute args log0 = (log', inl e)).
Proof.
  unfold GenerateHeatMap. unfold bind at 1, print at 1.
  unfold bind at 1, lift at 1.
  destruct (read_file event_file) as [content|]; [|intros [= <- <-]; auto].
  destruct (aggregate (file_lines content)) as [d m] eqn:Hagg. simpl.
  unfold bind at 1.
  destruct (Execute _ _) as [log1 [e1|[]]] eqn:He1; [intros [= <- <-]; eauto 6|].
  unfold bind at 1, print at 1. unfold bind at 1.
  match goal with |- context [spots d m cy scale ?tp ?ks ?pr ?lg] =>
    destruct (spots d m cy scale tp ks pr lg) as [log2 [e2|[]]] eqn:Hs end.
  { intros [= <- <-]. apply spots_inl in Hs as [(l & Hin & Hl)|Hr]; [|auto].
    right. left. exists content, l. rewrite Hagg. simpl. split_and!; done. }
  unfold bind at 1.
  destruct (Execute _ log2) as [log3 [e3|[]]] eqn:He3; [intros [= <- <-]; eauto 6|].
  unfold bind at 1.
  destruct (Execute _ log3) as [log4 [e4|[]]] eqn:He4; [intros [= <- <-]; eauto 6|].
  unfold bind at 1.
  destruct (Execute _ log4) as [log5 [e5|[]]] eqn:He5; [intros [= <- <-]; eauto 6|].
  unfold print. done.
Qed.

Lemma dict_keys_lookup d location :
  location ∈ dict_keys d ↔ is_Some (d !! location).
Proof.
  rewrite dict_keys_perm, list_elem_of_fmap. split.
  - intros ([k v] & -> & Hin). apply elem_of_map_to_list in Hin. by exists v.
  - intros [v Hv]. exists (location, v). split; [done|].
    by apply elem_of_map_to_list.
Qed.

Lemma aggregate_max_pos lines location w :
  (aggregate lines).1 !! location = Some w → 1 ≤ (aggregate lines).2.
Proof.
  intros Hw. destruct (aggregate_inv_holds lines) as (Hpos & Hub & _ & _).
  specialize (Hpos _ _ Hw). specialize (Hub _ _ Hw). simpl in Hpos. lia.
Qed.

Lemma Execute_inl args log log' e :
  Execute args log = (log', inl e) →
  log' = log ++ [Call args] ∧
  (e = OSError ∧ exit_status log args = None ∨
   ∃ status, exit_status log args = Some status ∧ 0 < status ∧
             e = RuntimeError ("FAILED: " +:+ join " " args)).
Proof.
  rewrite Execute_spec. destruct (exit_status log args) as [status|].
  - destruct (Z.ltb_spec 0 status); [|done]. intros [= <- <-]. split; [done|].
    right. by exists status.
  - intros [= <- <-]. auto.
Qed.

(** The exceptions of a run, one by one. *)
Lemma GenerateHeatMap_inl_cases event_file level_image cx cy scale log log' e :
  GenerateHeatMap event_file level_image cx cy scale log = (log', inl e) →
  e = IOError ∨ e = ValueError ∨ e = IndexError ∨ e = OverflowError ∨
  e = OSError ∨ ∃ args, e = RuntimeError ("FAILED: " +:+ join " " args).
Proof.
  intros [[-> _]|[(content & l & _ & Hin & Hl)|(log0 & args & He)]]%GenerateHeatMap_inl;
    [auto| |].
  - apply dict_keys_lookup in Hin as [w Hw].
    destruct Hl as [Hp|[Hg|(w' & Hw' & Hc)]].
    + apply placement_error in Hp as [-> | ->]; auto.
    + unfold dict_get in Hg. by rewrite Hw in Hg.
    + apply whitening_error in Hc as ->; [auto|].
      by eapply aggregate_max_pos.
  - apply Execute_inl in He as [_ [[-> _]|(st & _ & _ & ->)]]; eauto 10.
Qed.

Lemma expected_stamp_length d m cy scale keys :
  (length (flat_map (expected_stamp d m cy scale) keys) ≤ length keys)%nat.
Proof.
  induction keys as [|k keys IH]; [done|].
  cbn [flat_map]. rewrite length_app, length_cons.
  assert (length (expected_stamp d m cy scale k) ≤ 1)%nat; [|lia].
  unfold expected_stamp.
  destruct (placement cy k); [simpl; lia|].
  destruct (dict_get d k); [simpl; lia|].
  destruct (whitening _ m scale); [simpl; lia|].
  destruct (0 <? _)%float; simpl; lia.
Qed.

End Failures.

(** ** Exact products and quotients *)

Section Exact.

(** The sign of the operand is the sign of the rounded value. *)
Lemma binary_round_aux_sign s m e l :
  binary_round_aux prec emax s m e l
  = match binary_round_aux prec emax false m e l with
    | S754_zero _ => S754_zero s
    | S754_infinity _ => S754_infinity s
    | S754_finite _ p g => S754_finite s p g
    | S754_nan => S754_nan
    end.
Proof.
  unfold binary_round_aux.
  destruct (shr_fexp prec emax m e l) as [mrs' e'].
  destruct (shr_fexp prec emax _ e' loc_Exact) as [mrs'' e''].
  destruct (shr_m mrs''); [done| |done].
  by destruct (e'' <=? emax - prec).
Qed.

(** A float is the rounding of its own value. *)
Lemma round_quotient_exact m e :
  valid_binary (S754_finite false m e) = true →
  e ≤ target (Zpos m) 1 e ∧
  round_quotient (Zpos m) 1 e = S754_finite false m e.
Proof.
  intros Hv. pose proof (valid_finite _ _ _ Hv) as (He & Hm & _).
  unfold valid_binary, bounded, canonical_mantissa in Hv.
  apply andb_true_iff in Hv as [Hc%Z.eqb_eq _]. rewrite fexp_eq in Hc.
  change (Z.pos (digits2_pos m)) with (Zdigits2 (Zpos m)) in Hc.
  assert (Ht : target (Zpos m) 1 e = e) by (unfold target; rewrite Z.div_1_r; lia).
  split; [lia|].
  unfold round_quotient. rewrite Ht, Z.sub_diag. change (1 * 2 ^ 0) with 1.
  assert (Hcode : code (Zpos m) 1 = 4 * Zpos m).
  { unfold code. rewrite Z.div_1_r, Z.mod_1_r. simpl. lia. }
  rewrite Hcode.
  assert (Hrne : rne (4 * Zpos m) = Zpos m).
  { unfold rne. replace (4 * Z.pos m) with (Z.pos m * 4) by lia.
    rewrite Z.mod_mul, Z.div_mul by done. done. }
  rewrite Hrne. unfold finish.
  destruct (Z.eqb_spec (Zpos m) (2 ^ 53)); [lia|].
  change (emax - prec) with 971 in He.
  destruct (Z.leb_spec e 971); [done|lia].
Qed.

Lemma SFmul_one_l x : valid_binary x = true → SF64mul one_sf x = x.
Proof.
  destruct x as [s|s| |s m e]; try done. intros Hv.
  assert (Hv' : valid_binary (S754_finite false m e) = true) by exact Hv.
  destruct (SFmul_round 4503599627370496 (-52) m e eq_refl Hv') as [_ Hmul].
  destruct (round_quotient_exact m e Hv') as [Hfine Hex].
  destruct (round_quotient_shift (Zpos m) 1 e 52) as [_ Hsh]; [lia..|done|].
  unfold SF64mul, SFmul, one_sf in *. cbn [xorb] in *.
  rewrite binary_round_aux_sign, Hmul.
  replace (4503599627370496 * Z.pos m) with (Zpos m * 2 ^ 52) by lia.
  replace (-52 + e) with (e - 52) by lia.
  by rewrite Hsh, Hex.
Qed.

Lemma mul_one_l (x : float) : (1 * x)%float = x.
Proof.
  apply Prim2SF_inj. rewrite mul_spec. apply SFmul_one_l, Prim2SF_valid.
Qed.

Lemma self_ratio w f : 1 ≤ w → float_of_int w = inr f → (f / f)%float = 1%float.
Proof.
  intros Hw Hf. destruct (float_of_int_pos w f) as (m & e & Hp & _); [lia|done|].
  apply Prim2SF_inj. rewrite div_spec, Hp. apply SFdiv_self.
Qed.

End Exact.


(** ** What a run prints *)

Section Progress.
Context `{Host}.
Implicit Types (d : gmap string Z) (log : list event).

Lemma prints_app log1 log2 : prints (log1 ++ log2) = prints log1 ++ prints log2.
Proof. unfold prints. apply omap_app. Qed.

Lemma Execute_prints args log : prints (Execute args log).1 = prints log.
Proof. rewrite Execute_spec. simpl. rewrite prints_app. simpl. apply app_nil_r. Qed.

Lemma dict_keys_length d : length (dict_keys d) = size d.
Proof. by rewrite dict_keys_perm, length_fmap, length_map_to_list. Qed.

Lemma dict_keys_singleton location (v : Z) :
  dict_keys {[ location := v ]} = [location].
Proof.
  apply Permutation_singleton_r. by rewrite dict_keys_perm, map_to_list_singleton.
Qed.

(** The progress counters after an iteration that ends normally, and the
    notice it prints. *)
Lemma spot_progress d m h scale tp location count percent log log' progress' :
  spot d m h scale tp location (count, percent) log = (log', inr progress') →
  progress' = (if tp <? count + 1 then (0, percent + 10) else (count + 1, percent)) ∧
  prints log'
  = prints log ++ (if tp <? count + 1 then [fmt_d (percent + 10) +:+ "%..."] else []).
Proof.
  unfold spot, bind, lift.
  destruct (placement h location) as [e|xy]; simpl; [done|].
  destruct (dict_get d location) as [e|w]; simpl; [done|].
  destruct (whitening w m scale) as [e|c]; simpl; [done|].
  destruct (0 <? c)%float.
  - rewrite Execute_spec.
    destruct (exit_status _ _) as [status|]; simpl; [|done].
    destruct (0 <? status); simpl; [done|].
    destruct (tp <? count + 1); unfold print, ret; simpl; intros [= <- <-];
      rewrite ?prints_app; simpl; by rewrite ?app_nil_r.
  - unfold ret at 1. simpl.
    destruct (tp <? count + 1); unfold print, ret; simpl; intros [= <- <-];
      rewrite ?prints_app; simpl; by rewrite ?app_nil_r.
Qed.

Lemma progress_notices_shift (percent : Z) (k : nat) :
  (fmt_d (percent + 10) +:+ "%...")
  :: ((λ j, fmt_d (percent + 10 + 10 * Z.of_nat j) +:+ "%...") <$> seq 1 k)
  = (λ j, fmt_d (percent + 10 * Z.of_nat j) +:+ "%...") <$> seq 1 (S k).
Proof.
  cbn [seq fmap list_fmap]. f_equal.
  rewrite <-(seq_shift k 1). change (map S (seq 1 k)) with (S <$> seq 1 k).
  rewrite <-list_fmap_compose. apply list_fmap_ext. intros _ j _. simpl.
  do 2 f_equal. lia.
Qed.

(** The loop invariant of the progress counters: [count] stays at most
    [ten_percent], and a notice is printed each time it would pass it. *)
Lemma spots_prints d m h scale tp keys count percent log log' :
  0 ≤ count ≤ tp →
  spots d m h scale tp keys (count, percent) log = (log', inr ()) →
  prints log'
  = prints log ++
    ((λ j, fmt_d (percent + 10 * Z.of_nat j) +:+ "%...")
       <$> seq 1 (Z.to_nat ((count + Z.of_nat (length keys)) / (tp + 1)))).
Proof.
  revert count percent log.
  induction keys as [|location keys IH]; intros count percent log Hc.
  - simpl. unfold ret. intros [= <-].
    rewrite Z.add_0_r, Z.div_small by lia. simpl. by rewrite app_nil_r.
  - cbn [spots]. unfold bind at 1.
    destruct (spot d m h scale tp location (count, percent) log)
      as [log1 [e|pr]] eqn:Hs; [done|].
    apply spot_progress in Hs as [-> Hp].
    destruct (Z.ltb_spec tp (count + 1)) as [Hlt|Hge].
    + intros Hrest.
      rewrite (IH 0 (percent + 10) log1), Hp, <-app_assoc by (done || lia).
      f_equal. cbn [app]. rewrite progress_notices_shift. do 2 f_equal.
      replace (count + Z.of_nat (length (location :: keys)))
        with (0 + Z.of_nat (length keys) + 1 * (tp + 1))
        by (rewrite length_cons; lia).
      rewrite Z.div_add by lia.
      assert (0 ≤ (0 + Z.of_nat (length keys)) / (tp + 1))
        by (apply Z.div_pos; lia).
      lia.
    + intros Hrest.
      rewrite (IH (count + 1) percent log1), Hp, app_nil_r by (done || lia).
      replace (count + Z.of_nat (length (location :: keys)))
        with (count + 1 + Z.of_nat (length keys)); [done|].
      rewrite length_cons. lia.
Qed.

End Progress.


(** ** Decimal numbers written and read back *)

Section Decimal.
Implicit Types (s t : string) (c : ascii).
Local Arguments String.append !_ _ / : simpl nomatch.

Lemma digit_value_pretty_char (r : N) :
  (r < 10)%N → digit_value (pretty_N_char r) = Some (Z.of_N r).
Proof.
  intros Hr.
  assert (r = 0 ∨ r = 1 ∨ r = 2 ∨ r = 3 ∨ r = 4 ∨ r = 5 ∨ r = 6 ∨ r = 7
          ∨ r = 8 ∨ r = 9)%N as Hcases by lia.
  repeat (destruct Hcases as [->|Hcases]; [reflexivity|]). by subst.
Qed.

(** Reading back the digits that ['%d'] writes in front of [s]. *)
Lemma pretty_N_go_read (x : N) s acc n :
  ∃ k : nat,
    read_digits acc n (pretty_N_go x s)
    = read_digits (acc * 10 ^ Z.of_nat k + Z.of_N x) (n + k) s ∧
    ((0 < x)%N → (0 < k)%nat).
Proof.
  revert s. induction (N.lt_wf_0 x) as [x _ IH]; intros s.
  destruct (decide (x = 0%N)) as [->|Hx].
  - exists 0%nat. rewrite pretty_N_go_0, Nat.add_0_r. split; [|lia].
    f_equal. simpl. lia.
  - rewrite pretty_N_go_step by lia.
    destruct (IH (x `div` 10)%N) with (s := String (pretty_N_char (x `mod` 10)) s)
      as (k & Hk & _).
    { apply N.div_lt; lia. }
    exists (S k). split; [|lia]. rewrite Hk. simpl read_digits.
    rewrite digit_value_pretty_char by (apply N.mod_lt; lia).
    f_equal; [|lia].
    rewrite Nat2Z.inj_succ, Z.pow_succ_r by lia.
    pose proof (N.div_mod x 10). rewrite N2Z.inj_div, N2Z.inj_mod.
    pose proof (Z.div_mod (Z.of_N x) 10). simpl Z.of_N. lia.
Qed.

Lemma pretty_N_go_head (x : N) s :
  (0 < x)%N → ∃ c u, pretty_N_go x s = String c u ∧ is_Some (digit_value c).
Proof.
  revert s. induction (N.lt_wf_0 x) as [x _ IH]; intros s Hx.
  rewrite pretty_N_go_step by done.
  destruct (decide (x `div` 10 = 0)%N) as [->|Hd].
  - rewrite pretty_N_go_0. eexists _, _. split; [done|].
    rewrite digit_value_pretty_char by (apply N.mod_lt; lia). eauto.
  - apply IH; [apply N.div_lt; lia|]. by apply N.neq_0_lt_0.
Qed.

Lemma int_digit_head c u :
  is_Some (digit_value c) → int (String c u) = read_unsigned false (String c u).
Proof.
  intros Hc. unfold int. simpl skip_space. rewrite digit_not_space by done.
  destruct c as [[] [] [] [] [] [] [] []]; try done; by destruct Hc as [? [=]].
Qed.

(** The digits of a positive number, read with or without a sign. *)
Lemma read_unsigned_pretty negative (p : positive) :
  read_unsigned negative (pretty_N_go (Npos p) "")
  = inr (if negative then - Zpos p else Zpos p) ∧
  int (pretty_N_go (Npos p) "") = inr (Zpos p).
Proof.
  destruct (pretty_N_go_head (Npos p) "") as (c & u & Hu & Hc); [lia|].
  destruct (pretty_N_go_read (Npos p) "" 0 0) as (k & Hk & Hpos).
  assert (Hread : ∀ neg, read_unsigned neg (pretty_N_go (Npos p) "")
                         = inr (if neg then - Zpos p else Zpos p)).
  { intros neg. unfold read_unsigned.
    assert (skip_space (pretty_N_go (Npos p) "") = pretty_N_go (Npos p) "") as ->.
    { rewrite Hu. simpl. by rewrite digit_not_space. }
    rewrite Hk. simpl read_digits. destruct k; [lia|]. done. }
  split; [done|]. rewrite Hu, int_digit_head, <-Hu by done. apply (Hread false).
Qed.

Lemma fmt_d_pos (p : positive) : fmt_d (Zpos p) = pretty_N_go (Npos p) "".
Proof. reflexivity. Qed.

Lemma fmt_d_neg (p : positive) :
  fmt_d (Zneg p) = String "-" (pretty_N_go (Npos p) "").
Proof. reflexivity. Qed.

Lemma int_fmt_d (v : Z) : int (fmt_d v) = inr v.
Proof.
  destruct v as [|p|p]; [done| |].
  - rewrite fmt_d_pos. apply (read_unsigned_pretty false).
  - rewrite fmt_d_neg.
    change (int (String "-" ?s)) with (read_unsigned true s).
    apply (read_unsigned_pretty true).
Qed.

End Decimal.


(** ** Counts that convert to a float *)

Section NoOverflow.

Lemma finish_not_infinity m t s : t ≤ 970 → finish m t ≠ S754_infinity s.
Proof.
  intros Ht. unfold finish.
  destruct (m =? 2 ^ 53).
  - destruct (Z.leb_spec (t + 1) 971); [done|lia].
  - destruct m; [done| |done]. destruct (Z.leb_spec t 971); [done|lia].
Qed.

(** A count below [2 ^ 1023] converts to a float. *)
Lemma float_of_int_total w : 1 ≤ w < 2 ^ 1023 → ∃ f, float_of_int w = inr f.
Proof.
  intros [Hw Hlt]. unfold float_of_int.
  destruct (binary_normalize_round w) as [_ Hbn]; [lia|]. cbv zeta in Hbn.
  set (k := Z.max 0 (53 - Zdigits2 w)) in *.
  assert (Hdk : Zdigits2 (w * 2 ^ k) = Zdigits2 w + k).
  { pose proof (Zdigits2_shift_div w 1 k) as Hsh.
    rewrite !Z.div_1_r in Hsh. apply Hsh; lia. }
  assert (Hd : Zdigits2 w ≤ 1023) by (apply Zdigits2_le; lia).
  assert (Hnot : ∀ s, binary_normalize prec emax w 0 false ≠ S754_infinity s).
  { intros s. rewrite Hbn. unfold round_quotient. apply finish_not_infinity.
    unfold target. rewrite Z.div_1_r, Hdk. lia. }
  destruct (binary_normalize prec emax w 0 false) as [s|s| |s m e]; eauto.
  by destruct (Hnot s).
Qed.

Lemma whitening_total w m scale :
  1 ≤ w ≤ m → m < 2 ^ 1023 → ∃ c, whitening w m scale = inr c.
Proof.
  intros Hw Hm. unfold whitening, opacity, float_div_int.
  destruct (float_of_int_total w) as [fw ->]; [lia|].
  destruct (float_of_int_total m) as [fm Hfm]; [lia|]. rewrite Hfm.
  destruct (float_of_int_pos m fm) as (p & g & Hp & _); [lia|done|].
  assert (Hnz : (fm =? 0)%float = false).
  { rewrite FloatAxioms.eqb_spec, Hp. reflexivity. }
  rewrite Hnz. eauto.
Qed.

End NoOverflow.

Section Completion.
Context `{Host}.

Lemma GenerateHeatMap_inr_last event_file level_image cx cy scale log log' :
  GenerateHeatMap event_file level_image cx cy scale log = (log', inr ()) →
  ∃ log0, log' = log0 ++ [Print "Complete."].
Proof.
  unfold GenerateHeatMap. unfold bind at 1, print at 1.
  unfold bind at 1, lift at 1.
  destruct (read_file event_file) as [content|]; [|done].
  destruct (aggregate (file_lines content)) as [d m].
  unfold bind at 1. destruct (Execute _ _) as [log1 [e|[]]]; [done|].
  unfold bind at 1, print at 1. unfold bind at 1.
  destruct (spots _ _ _ _ _ _ _ _) as [log2 [e|[]]]; [done|].
  unfold bind at 1. destruct (Execute _ log2) as [log3 [e|[]]]; [done|].
  unfold bind at 1. destruct (Execute _ log3) as [log4 [e|[]]]; [done|].
  unfold bind at 1. destruct (Execute _ log4) as [log5 [e|[]]]; [done|].
  unfold print. intros [= <-]. eauto.
Qed.

(** The commands of the loop, whether it ends normally or not, come after
    those issued before it. *)
Lemma spots_calls_prefix d m h scale tp keys progress log :
  ∃ rest, calls (spots d m h scale tp keys progress log).1 = calls log ++ rest.
Proof.
  revert progress log. induction keys as [|location keys IH]; intros progress log.
  - exists []. simpl. by rewrite app_nil_r.
  - cbn [spots]. unfold bind at 1.
    pose proof (spot_calls d m h scale tp location progress log) as Hc.
    destruct (spot d m h scale tp location progress log) as [log1 [e|pr]];
      simpl in Hc.
    + eexists. exact Hc.
    + destruct (IH pr log1) as [rest Hr]. eexists. by rewrite Hr, Hc, <-app_assoc.
Qed.

End Completion.


(** ** Subtraction from 1.0 *)

Section Subtraction.


Lemma round_quotient_shape a b e :
  0 ≤ a → 0 < b → e ≤ target a b e →
  round_quotient a b e = S754_zero false ∨
  (∃ p g, round_quotient a b e = S754_finite false p g) ∨
  round_quotient a b e = S754_infinity false.
Proof.
  intros Ha Hb Hfine.
  destruct (kept_mantissa_bounds a b e Ha Hb Hfine) as [Hm _].
  unfold round_quotient.
  destruct (finish_cases _ (target a b e) Hm) as [[_ ->]|[_ [(p & g & ->)| ->]]];
    eauto.
Qed.


Lemma SFmul_nonneg p g y :
  valid_binary (S754_finite false p g) = true → valid_binary y = true →
  SFleb (S754_zero false) y = true →
  SFleb (S754_zero false) (SF64mul (S754_finite false p g) y) = true.
Proof.
  intros Hx Hy Hle. destruct y as [s|s| |s q h]; try done.
  destruct s; [done|].
  destruct (SFmul_round p g q h Hx Hy) as [Hfine ->].
  destruct (round_quotient_shape (Zpos p * Zpos q) 1 (g + h))
    as [-> |[(p' & g' & ->)| ->]]; [lia|lia|done|done..].
Qed.

End Subtraction.


(** ** The properties *)

(** X1. When every line of the file is the same, the mapping has that line
    as its only key, counted once per line, [maxRepetitions] is the number
    of lines, and the loop over the locations has one iteration. *)
Theorem identical_lines_one_location `{Host} (location : string) (n : nat) :
  aggregate (replicate (S n) location)
  = ({[ location := Z.of_nat (S n) ]}, Z.of_nat (S n)) ∧
  dict_keys (aggregate (replicate (S n) location)).1 = [location].
Proof.
  rewrite aggregate_replicate. split; [done|]. apply dict_keys_singleton.
Qed.

(** X2. The order of the events does not matter: two files with the same
    lines in another order give the same mapping and the same
    [maxRepetitions]. *)
Theorem aggregate_order_irrelevant (lines1 lines2 : list string) :
  lines1 ≡ₚ lines2 → aggregate lines1 = aggregate lines2.
Proof.
  intros Hp.
  assert (Hd : (aggregate lines1).1 = (aggregate lines2).1).
  { apply map_eq. intros k.
    by rewrite !aggregate_lookup, (occurrences_perm k lines1 lines2). }
  rewrite (surjective_pairing (aggregate lines1)),
    (surjective_pairing (aggregate lines2)), !aggregate_max, Hd. done.
Qed.

Lemma aggregate_order_irrelevant_witness :
  aggregate ["10,10"; "50,50"; "10,10"] = aggregate ["50,50"; "10,10"; "10,10"].
Proof.
  apply aggregate_order_irrelevant. apply perm_swap.
Defined.

(** X3. The keys of the mapping are the lines that occur in the file, so
    that [len(uniqueLocations)] is the number of distinct lines, at most the
    number of lines; [maxRepetitions] is at most the number of lines, and
    at least 1 once a line has been read. *)
Theorem unique_locations_are_the_lines (lines : list string) :
  let uniqueLocations := (aggregate lines).1 in
  let maxRepetitions := (aggregate lines).2 in
  (∀ location, is_Some (uniqueLocations !! location) ↔ location ∈ lines) ∧
  size uniqueLocations = length (remove_dups lines) ∧
  (size uniqueLocations ≤ length lines)%nat ∧
  maxRepetitions ≤ Z.of_nat (length lines) ∧
  (match lines with [] => 0 | _ => 1 end) ≤ maxRepetitions.
Proof.
  cbv zeta. split_and!.
  - intros k. rewrite aggregate_lookup, <-occurrences_pos.
    pose proof (occurrences_nonneg k lines).
    case_decide; split; try lia; eauto. by intros [??].
  - apply aggregate_size_distinct.
  - apply aggregate_size_le_length.
  - apply aggregate_max_le_length.
  - destruct lines as [|l lines]; [done|].
    destruct (aggregate_inv_holds (l :: lines)) as (Hpos & Hub & _ & Hatt).
    destruct Hatt as [k Hk]; [by apply aggregate_nonempty|].
    specialize (Hpos _ _ Hk). simpl in Hpos. lia.
Qed.

(** X4. A run of [GenerateHeatMap] that ends with an exception ends with one
    of [IOError] (the event file), [ValueError] or [IndexError] (a line or
    the canvas height that does not parse), [OverflowError] (a count too
    large for a float), [OSError] or [RuntimeError] (a command): never with
    a [ZeroDivisionError] or a [KeyError], whatever the file holds. *)
Theorem run_fails_only_by_input_or_command `{Host}
    (event_file level_image canvas_size_x canvas_size_y : string)
    (scale : float) (log : list event) (e : exn) :
  (GenerateHeatMap event_file level_image canvas_size_x canvas_size_y scale
     log).2 = inl e →
  run_failure e = true.
Proof.
  destruct (GenerateHeatMap _ _ _ _ _ _) as [log' r] eqn:Hrun. simpl.
  intros ->.
  by apply GenerateHeatMap_inl_cases in Hrun
    as [->|[->|[->|[->|[->|[args ->]]]]]].
Qed.

Lemma run_fails_only_by_input_or_command_witness :
  run_failure ValueError = true.
Proof.
  apply (@run_fails_only_by_input_or_command
           (scripted_host ("10,10" +:+ newline +:+ "1.5,2" +:+ newline) 0)
           "events.txt" "level.png" "100" "100" 1%float []).
  vm_compute. reflexivity.
Defined.

(** X5. A run that ends with a [RuntimeError] has just called the command
    that failed: the call is the last event, its exit status was above
    zero, and the message is "FAILED: " followed by the words of the
    command separated by spaces. Nothing is called after a failure. *)
Theorem failed_command_ends_the_run `{Host}
    (event_file level_image canvas_size_x canvas_size_y : string)
    (scale : float) (log log' : list event) (msg : string) :
  GenerateHeatMap event_file level_image canvas_size_x canvas_size_y scale log
  = (log', inl (RuntimeError msg)) →
  ∃ log0 args status,
    log' = log0 ++ [Call args] ∧
    exit_status log0 args = Some status ∧ 0 < status ∧
    msg = "FAILED: " +:+ join " " args.
Proof.
  intros [[[=] _]|[(content & l & _ & Hin & Hl)|(log0 & args & He)]]%GenerateHeatMap_inl.
  - apply dict_keys_lookup in Hin as [w Hw].
    destruct Hl as [Hp|[Hg|(w' & Hw' & Hc)]].
    + by apply placement_error in Hp as [|].
    + unfold dict_get in Hg. by rewrite Hw in Hg.
    + apply whitening_error in Hc; [done|]. by eapply aggregate_max_pos.
  - apply Execute_inl in He as [-> [[[=] _]|(st & Hst & Hpos & [= ->])]].
    by exists log0, args, st.
Qed.

Lemma failed_command_ends_the_run_witness :
  ∃ log0 args status,
    [Print "Reading events.txt...";
     Call ["convert"; "-size"; "100x100"; "pattern:gray100"; "empty.miff"]]
    = log0 ++ [Call args] ∧
    @exit_status (scripted_host sample_events 1) log0 args = Some status ∧
    0 < status ∧
    "FAILED: convert -size 100x100 pattern:gray100 empty.miff"
    = "FAILED: " +:+ join " " args.
Proof.
  apply (@failed_command_ends_the_run (scripted_host sample_events 1)
           "events.txt" "level.png" "100" "100" 1%float []).
  vm_compute. reflexivity.
Defined.

(** X6. One line that cannot be placed is enough to lose the heat map: if
    any line of the event file fails to parse, the run ends with an
    exception, whatever the other lines are and wherever the line stands. *)
Theorem unparsable_line_aborts_the_run `{Host}
    (event_file level_image canvas_size_x canvas_size_y content line : string)
    (scale : float) (log : list event) (e : exn) :
  read_file event_file = Some content →
  line ∈ file_lines content →
  placement canvas_size_y line = inl e →
  ∃ log' e',
    GenerateHeatMap event_file level_image canvas_size_x canvas_size_y scale log
    = (log', inl e').
Proof.
  intros Hread Hin Hp.
  destruct (GenerateHeatMap _ _ _ _ _ _) as [log' [e'|[]]] eqn:Hrun; [eauto|].
  apply GenerateHeatMap_calls in Hrun as (content' & Hread' & _ & Hall).
  rewrite Hread in Hread'. injection Hread' as <-.
  rewrite Forall_forall in Hall.
  destruct (Hall line) as (xy & _ & _ & Hxy & _); [|congruence].
  apply dict_keys_lookup. rewrite aggregate_lookup.
  case_decide as Hz; [|eauto].
  assert (0 < occurrences line (file_lines content)); [|lia].
  unfold occurrences.
  assert (Hk : line ∈ filter (λ l, l = line) (file_lines content))
    by (by apply list_elem_of_filter).
  destruct (filter _ _); [by apply elem_of_nil in Hk|simpl; lia].
Qed.

Lemma unparsable_line_aborts_the_run_witness :
  ∃ log' e',
    @GenerateHeatMap (scripted_host ("10,10" +:+ newline +:+ newline) 0)
      "events.txt" "level.png" "100" "100" 1 []
    = (log', inl e').
Proof.
  apply (@unparsable_line_aborts_the_run
           (scripted_host ("10,10" +:+ newline +:+ newline) 0)
           "events.txt" "level.png" "100" "100"
           ("10,10" +:+ newline +:+ newline) newline 1%float [] ValueError).
  - reflexivity.
  - vm_compute. right. left.
  - reflexivity.
Defined.

(** X7. When the run completes. If the event file can be read, every line
    of it can be placed, there are fewer than [2 ^ 1023] lines, and every
    command returns a status that is not above zero, then the run ends
    normally and its last act is to print "Complete.". A negative status,
    which [subprocess.call] returns for a command killed by a signal,
    counts as success. *)
Theorem run_completes `{Host}
    (event_file level_image canvas_size_x canvas_size_y content : string)
    (scale : float) (log : list event) :
  (∀ log0 args, ∃ status, exit_status log0 args = Some status ∧ status ≤ 0) →
  read_file event_file = Some content →
  Forall (λ line, ∃ xy, placement canvas_size_y line = inr xy)
    (file_lines content) →
  Z.of_nat (length (file_lines content)) < 2 ^ 1023 →
  ∃ log0,
    GenerateHeatMap event_file level_image canvas_size_x canvas_size_y scale log
    = (log0 ++ [Print "Complete."], inr ()).
Proof.
  intros Hcmd Hread Hlines Hlen.
  destruct (GenerateHeatMap _ _ _ _ _ _) as [log' [e|[]]] eqn:Hrun.
  2:{ apply GenerateHeatMap_inr_last in Hrun as [log0 ->]. eauto. }
  exfalso.
  apply GenerateHeatMap_inl in Hrun
    as [[_ Hnone]|[(content' & l & Hread' & Hin & Hl)|(log0 & args & He)]].
  - congruence.
  - rewrite Hread in Hread'. injection Hread' as <-.
    apply dict_keys_lookup in Hin as [w Hw].
    destruct Hl as [Hp|[Hg|(w' & Hw' & Hc)]].
    + rewrite Forall_forall in Hlines. destruct (Hlines l) as [xy Hxy]; [|congruence].
      apply occurrences_pos. rewrite aggregate_lookup in Hw.
      pose proof (occurrences_nonneg l (file_lines content)).
      case_decide; [done|lia].
    + unfold dict_get in Hg. by rewrite Hw in Hg.
    + rewrite Hw in Hw'. injection Hw' as <-.
      destruct (aggregate_inv_holds (file_lines content)) as (Hpos & Hub & _ & _).
      pose proof (Hpos _ _ Hw) as Hw1. simpl in Hw1. pose proof (Hub _ _ Hw).
      pose proof (aggregate_max_le_length (file_lines content)).
      destruct (whitening_total w (aggregate (file_lines content)).2 scale)
        as [c Hc']; [lia|lia|congruence].
  - apply Execute_inl in He as [_ [[_ Hnone]|(st & Hst & Hpos & _)]];
      destruct (Hcmd log0 args) as (st' & Hst' & Hle); [congruence|].
    rewrite Hst in Hst'. injection Hst' as <-. lia.
Qed.

Lemma run_completes_witness :
  ∃ log0,
    @GenerateHeatMap sample_host "events.txt" "level.png" "100" "100" 0.5 []
    = (log0 ++ [Print "Complete."], inr ()).
Proof.
  apply (@run_completes sample_host "events.txt" "level.png" "100" "100"
           sample_events 0.5%float []).
  - intros log0 args. exists 0. split; [reflexivity|lia].
  - reflexivity.
  - vm_compute file_lines. repeat (constructor; [eexists; reflexivity|]).
    constructor.
  - vm_compute. reflexivity.
Defined.

(** X8. [main] exits only before doing anything: a run that ends with
    [SystemExit] has printed nothing and called nothing, and the message is
    the usage line (fewer than four arguments) or names the first of the
    two files that does not exist; past the checks, nothing raises
    [SystemExit]. *)
Theorem main_exits_before_any_effect `{Host}
    (argv : list string) (log log' : list event) (msg : string) :
  main argv log = (log', inl (SystemExit msg)) →
  log' = log ∧
  ((length argv < 4)%nat ∧
   msg = "Usage: process.py event_file level_file canvas_size_x canvas_size_y [scale]"
   ∨ ∃ path, (argv !! 0%nat = Some path ∨
              argv !! 1%nat = Some path ∧
              ∃ event_file, argv !! 0%nat = Some event_file ∧
                            path_exists event_file = true) ∧
             path_exists path = false ∧
             msg = "ERROR: File " +:+ path +:+ " was not found!").
Proof.
  destruct argv as [|a0 [|a1 [|a2 [|a3 more]]]];
    try (intros [= <- <-]; split; [done|]; left; split; [simpl; lia|done]).
  unfold main. simpl.
  destruct (path_exists a0) eqn:H0; simpl.
  2:{ intros [= <- <-]. split; [done|]. right. exists a0. auto. }
  destruct (path_exists a1) eqn:H1; simpl.
  2:{ intros [= <- <-]. split; [done|]. right. exists a1. split; [|done].
      right. split; [done|]. by exists a0. }
  intros Hrun. exfalso. revert Hrun. unfold bind.
  assert (Hno : ∀ scale,
    GenerateHeatMap a0 a1 a2 a3 scale log ≠ (log', inl (SystemExit msg))).
  { intros scale Hrun.
    by apply GenerateHeatMap_inl_cases in Hrun as [?|[?|[?|[?|[?|[args ?]]]]]]. }
  destruct more as [|scale_arg more]; simpl.
  - unfold ret. apply Hno.
  - unfold lift. destruct (float_of_string scale_arg); [apply Hno|done].
Qed.

Lemma main_exits_before_any_effect_witness :
  (@main sample_host ["events.txt"; "level.png"] [Print "before"]).1
  = [Print "before"] ∧
  (length ["events.txt"; "level.png"] < 4)%nat.
Proof.
  destruct (@main_exits_before_any_effect sample_host
              ["events.txt"; "level.png"] [Print "before"] [Print "before"]
              "Usage: process.py event_file level_file canvas_size_x canvas_size_y [scale]"
              eq_refl)
    as [_ [[Hlen _]|(path & _ & Hpath & _)]].
  - split; [reflexivity|exact Hlen].
  - discriminate Hpath.
Defined.

(** X9. The order in which the dict yields its keys only orders the stamps:
    in a run that ends normally the stamps issued are, up to their order,
    those of the keys in the enumeration of the mapping, at most one per
    unique location and so at most one per line. *)
Theorem stamps_do_not_depend_on_dict_order `{Host}
    (event_file level_image canvas_size_x canvas_size_y : string)
    (scale : float) (log log' : list event) :
  GenerateHeatMap event_file level_image canvas_size_x canvas_size_y scale log
  = (log', inr ()) →
  ∃ content stamps, read_file event_file = Some content ∧
    calls log'
    = calls log ++
      ["convert"; "-size"; canvas_size_x +:+ "x" +:+ canvas_size_y;
       "pattern:gray100"; "empty.miff"]
      :: stamps
      ++ [["convert"; "empty.miff"; "-negate"; "full.miff"];
          ["convert"; "full.miff"; "colors.png"; "-fx"; "v.p{0,u*v.h}";
           "final.miff"];
          ["composite"; "-blend"; "40%"; "final.miff"; level_image;
           "heatmap.png"]] ∧
    stamps ≡ₚ flat_map (expected_stamp (aggregate (file_lines content)).1
                          (aggregate (file_lines content)).2 canvas_size_y scale)
                (map_to_list (aggregate (file_lines content)).1).*1 ∧
    (length stamps ≤ size (aggregate (file_lines content)).1)%nat ∧
    (size (aggregate (file_lines content)).1 ≤ length (file_lines content))%nat.
Proof.
  intros (content & Hread & Hc & _)%GenerateHeatMap_calls. cbv zeta in Hc.
  exists content. eexists. split; [done|]. split; [exact Hc|].
  split_and!.
  - apply Permutation_flat_map, dict_keys_perm.
  - rewrite <-dict_keys_length. apply expected_stamp_length.
  - apply aggregate_size_le_length.
Qed.

Lemma stamps_do_not_depend_on_dict_order_witness :
  ∃ content stamps, @read_file sample_host "events.txt" = Some content ∧
    calls (@GenerateHeatMap sample_host "events.txt" "level.png" "100" "100"
             0.5 []).1
    = ["convert"; "-size"; "100x100"; "pattern:gray100"; "empty.miff"]
      :: stamps
      ++ [["convert"; "empty.miff"; "-negate"; "full.miff"];
          ["convert"; "full.miff"; "colors.png"; "-fx"; "v.p{0,u*v.h}";
           "final.miff"];
          ["composite"; "-blend"; "40%"; "final.miff"; "level.png";
           "heatmap.png"]] ∧
    (length stamps ≤ 2)%nat.
Proof.
  destruct (@stamps_do_not_depend_on_dict_order sample_host "events.txt"
              "level.png" "100" "100" 0.5%float []
              (@GenerateHeatMap sample_host "events.txt" "level.png" "100" "100"
                 0.5 []).1)
    as (content & stamps & Hread & Hcalls & _ & Hlen & _).
  - vm_compute. reflexivity.
  - exists content, stamps. split; [exact Hread|]. split; [exact Hcalls|].
    injection Hread as <-. exact Hlen.
Defined.

(** X10. What a run that ends normally prints: the file being read, the
    maximum, one notice per [ten_percent + 1] locations, and "Complete.".
    With [n] unique locations and [ten_percent = n / 10] there are
    [n / (n / 10 + 1)] notices, at most nine: the last notice is never
    "100%...", and with fewer than ten locations every location gets its
    own notice. *)
Theorem progress_notices_stop_at_ninety `{Host}
    (event_file level_image canvas_size_x canvas_size_y : string)
    (scale : float) (log log' : list event) :
  GenerateHeatMap event_file level_image canvas_size_x canvas_size_y scale log
  = (log', inr ()) →
  ∃ content, read_file event_file = Some content ∧
    let total_count := Z.of_nat (size (aggregate (file_lines content)).1) in
    let notices := total_count / (total_count / 10 + 1) in
    prints log'
    = prints log ++
      ["Reading " +:+ event_file +:+ "...";
       fmt_d (aggregate (file_lines content)).2 +:+ " max repetitions"] ++
      progress_notices (Z.to_nat notices) ++ ["Complete."] ∧
    0 ≤ notices ≤ 9 ∧
    (total_count < 10 → notices = total_count).
Proof.
  unfold GenerateHeatMap. unfold bind at 1, print at 1.
  unfold bind at 1, lift at 1.
  destruct (read_file event_file) as [content|]; [|done].
  intros Hrun. exists content. split; [done|]. cbv zeta.
  destruct (aggregate (file_lines content)) as [d m]. cbn [fst snd].
  set (n := Z.of_nat (size d)) in *.
  assert (Hn : 0 ≤ n) by (unfold n; lia).
  split; [|split; [split|]].
  2:{ apply Z.div_pos; [done|]. pose proof (Z.div_pos n 10). lia. }
  2:{ pose proof (Z.div_pos n 10 Hn). 
      apply Z.lt_succ_r, Z.div_lt_upper_bound; [lia|].
      pose proof (Z.mul_succ_div_gt n 10). lia. }
  2:{ intros Hlt. rewrite (Z.div_small n 10) by lia. simpl. apply Z.div_1_r. }
  revert Hrun.
  unfold bind at 1.
  pose proof (Execute_prints ["convert"; "-size"; canvas_size_x +:+ "x" +:+ canvas_size_y;
                              "pattern:gray100"; "empty.miff"]
                (log ++ [Print ("Reading " +:+ event_file +:+ "...")])) as Hp1.
  destruct (Execute _ _) as [log1 [e|[]]]; [done|]. simpl in Hp1.
  unfold bind at 1, print at 1. unfold bind at 1.
  match goal with |- context [spots d m canvas_size_y scale ?tp ?ks ?pr ?lg] =>
    destruct (spots d m canvas_size_y scale tp ks pr lg) as [log2 [e|[]]] eqn:Hs end;
    [done|].
  apply spots_prints in Hs; [|pose proof (Z.div_pos n 10); lia].
  rewrite dict_keys_length, Z.add_0_l in Hs. fold n in Hs.
  unfold bind at 1.
  pose proof (Execute_prints ["convert"; "empty.miff"; "-negate"; "full.miff"] log2) as Hp3.
  destruct (Execute _ log2) as [log3 [e|[]]]; [done|]. simpl in Hp3.
  unfold bind at 1.
  pose proof (Execute_prints ["convert"; "full.miff"; "colors.png"; "-fx";
                              "v.p{0,u*v.h}"; "final.miff"] log3) as Hp4.
  destruct (Execute _ log3) as [log4 [e|[]]]; [done|]. simpl in Hp4.
  unfold bind at 1.
  pose proof (Execute_prints ["composite"; "-blend"; "40%"; "final.miff";
                              level_image; "heatmap.png"] log4) as Hp5.
  destruct (Execute _ log4) as [log5 [e|[]]]; [done|]. simpl in Hp5.
  unfold print. intros [= <-].
  rewrite prints_app, Hp5, Hp4, Hp3, Hs, prints_app, Hp1, prints_app.
  simpl. rewrite <-!app_assoc. simpl. done.
Qed.

Lemma progress_notices_stop_at_ninety_witness :
  ∃ content, @read_file sample_host "events.txt" = Some content ∧
    prints (@GenerateHeatMap sample_host "events.txt" "level.png" "100" "100" 1
              []).1
    = ["Reading events.txt..."; "3 max repetitions"; "10%..."; "20%...";
       "Complete."].
Proof.
  destruct (@progress_notices_stop_at_ninety sample_host "events.txt" "level.png"
              "100" "100" 1%float []
              (@GenerateHeatMap sample_host "events.txt" "level.png" "100" "100"
                 1 []).1)
    as (content & Hread & Hprints & _).
  - vm_compute. reflexivity.
  - exists content. split; [exact Hread|]. rewrite Hprints.
    injection Hread as <-. vm_compute. reflexivity.
Defined.

(** X11. A file whose lines are all the same gives a blank heat map for every
    scale that is at least 1.0 (the default included): the only location is
    the hottest one, its opacity is [scale], and a run that ends normally
    issues the canvas command and the three closing commands, no stamp. *)
Theorem single_location_is_never_stamped `{Host}
    (event_file level_image canvas_size_x canvas_size_y content location : string)
    (n : nat) (scale : float) (log log' : list event) :
  read_file event_file = Some content →
  file_lines content = replicate (S n) location →
  (1 <=? scale)%float = true →
  GenerateHeatMap event_file level_image canvas_size_x canvas_size_y scale log
  = (log', inr ()) →
  calls log'
  = calls log ++
    [["convert"; "-size"; canvas_size_x +:+ "x" +:+ canvas_size_y;
      "pattern:gray100"; "empty.miff"];
     ["convert"; "empty.miff"; "-negate"; "full.miff"];
     ["convert"; "full.miff"; "colors.png"; "-fx"; "v.p{0,u*v.h}"; "final.miff"];
     ["composite"; "-blend"; "40%"; "final.miff"; level_image; "heatmap.png"]].
Proof.
  intros Hread Hlines Hscale Hrun.
  apply GenerateHeatMap_calls in Hrun as (content' & Hread' & Hc & _).
  rewrite Hread in Hread'. injection Hread' as <-. cbv zeta in Hc.
  rewrite Hlines, aggregate_replicate in Hc. cbn [fst snd] in Hc.
  rewrite dict_keys_singleton in Hc. rewrite Hc. do 2 f_equal.
  cbn [flat_map]. rewrite app_nil_r.
  assert (Hs : expected_stamp {[location := Z.of_nat (S n)]} (Z.of_nat (S n))
                 canvas_size_y scale location = []); [|by rewrite Hs].
  unfold expected_stamp, dict_get, whitening.
  destruct (placement canvas_size_y location); [done|].
  rewrite lookup_singleton_eq.
  destruct (opacity _ _ scale) as [e|c] eqn:Ho; [done|].
  apply opacity_inr in Ho as (fw & fm & Hfw & Hfm & ->).
  rewrite Hfw in Hfm. injection Hfm as <-.
  rewrite (self_ratio (Z.of_nat (S n)) fw), mul_one_l by (done || lia).
  by rewrite one_minus_not_pos.
Qed.

Lemma single_location_is_never_stamped_witness :
  calls (@GenerateHeatMap
           (scripted_host ("10,10" +:+ newline +:+ "10,10" +:+ newline) 0)
           "events.txt" "level.png" "100" "100" 1 []).1
  = [["convert"; "-size"; "100x100"; "pattern:gray100"; "empty.miff"];
     ["convert"; "empty.miff"; "-negate"; "full.miff"];
     ["convert"; "full.miff"; "colors.png"; "-fx"; "v.p{0,u*v.h}"; "final.miff"];
     ["composite"; "-blend"; "40%"; "final.miff"; "level.png"; "heatmap.png"]].
Proof.
  apply (@single_location_is_never_stamped
           (scripted_host ("10,10" +:+ newline +:+ "10,10" +:+ newline) 0)
           "events.txt" "level.png" "100" "100"
           ("10,10" +:+ newline +:+ "10,10" +:+ newline) ("10,10" +:+ newline)
           1 1%float []); reflexivity.
Defined.

(** X12. The location with the highest count has opacity [scale] exactly:
    its ratio [float(maxRepetitions) / maxRepetitions] is 1.0 without
    rounding error and the product by 1.0 is exact, so the factor compared
    with zero is [1.0 - scale]. *)
Theorem hottest_location_has_opacity_scale
    (maxRepetitions : Z) (scale contribution : float) :
  1 ≤ maxRepetitions →
  opacity maxRepetitions maxRepetitions scale = inr contribution →
  contribution = scale ∧
  whitening maxRepetitions maxRepetitions scale = inr (1 - scale)%float.
Proof.
  intros Hm Ho. unfold whitening. rewrite Ho.
  apply opacity_inr in Ho as (fw & fm & Hfw & Hfm & ->).
  rewrite Hfw in Hfm. injection Hfm as <-.
  rewrite (self_ratio maxRepetitions fw), mul_one_l by done. done.
Qed.

Lemma hottest_location_has_opacity_scale_witness :
  0.75%float = 0.75%float ∧ whitening 3 3 0.75 = inr (1 - 0.75)%float.
Proof.
  apply (hottest_location_has_opacity_scale 3 0.75%float 0.75%float);
    [lia|reflexivity].
Defined.

(** X13. With a scale that is at least zero, the opacity of a location lies
    between zero and [scale]: the ratio [float(weight) / maxRepetitions] is
    at most 1.0 and the product is rounded monotonically. *)
Theorem opacity_between_zero_and_scale
    (weight maxRepetitions : Z) (scale contribution : float) :
  1 ≤ weight ≤ maxRepetitions → (0 <=? scale)%float = true →
  opacity weight maxRepetitions scale = inr contribution →
  (0 <=? contribution)%float = true ∧ (contribution <=? scale)%float = true.
Proof.
  intros Hw Hs (fw & fm & Hfw & Hfm & ->)%opacity_inr.
  destruct (ratio_shape weight maxRepetitions fw fm Hw Hfw Hfm) as (p & g & Hr & Hle).
  split.
  - rewrite leb_spec in *. rewrite mul_spec, Hr.
    change (Prim2SF 0) with (S754_zero false) in *.
    pose proof (Prim2SF_valid (fw / fm)) as Hvr. rewrite Hr in Hvr.
    apply SFmul_nonneg; [done|apply Prim2SF_valid|done].
  - rewrite <-(mul_one_l scale) at 2.
    apply (scale_mono _ _ _ p g 4503599627370496 (-52)); [done|done| |done].
    by rewrite Hr.
Qed.

Lemma opacity_between_zero_and_scale_witness :
  (0 <=? 0.25)%float = true ∧ (0.25 <=? 0.75)%float = true.
Proof.
  apply (opacity_between_zero_and_scale 1 3 0.75%float 0.25%float);
    [lia|reflexivity|reflexivity].
Defined.



(** X15. A line without a comma is never placed: [xy[1]] does not exist. The
    error is the [IndexError] of [xy[1]] only when both the line and the
    canvas height read as integers, since [int(xy[0])] and
    [int(canvas_size_y)] are evaluated first; otherwise it is their
    [ValueError]. *)
Theorem line_without_comma_is_rejected (canvas_size_y location : string) :
  ","%char ∉ chars location →
  placement canvas_size_y location
  = match int location, int canvas_size_y with
    | inr _, inr _ => inl IndexError
    | _, _ => inl ValueError
    end.
Proof.
  intros Hc. unfold placement. rewrite split_no_sep by done. simpl.
  destruct (int location) as [e|x] eqn:Hx; [by apply int_error in Hx as ->|].
  destruct (int canvas_size_y) as [e|h] eqn:Hh; [by apply int_error in Hh as ->|].
  done.
Qed.

Lemma line_without_comma_is_rejected_witness :
  placement "100" ("10" +:+ newline) = inl IndexError.
Proof.
  apply (line_without_comma_is_rejected "100" ("10" +:+ newline)).
  vm_compute. intros Hin.
  repeat (apply elem_of_cons in Hin as [Hin|Hin]; [discriminate Hin|]).
  by apply elem_of_nil in Hin.
Defined.

(** X16. The offsets written into the [-geometry] argument read back as the
    numbers they stand for: ['%d'] followed by [int] is the identity, and
    the sign that lines 115-120 put in front (["+"] for zero and above, the
    minus of ['%d'] below) is the one [int] accepts. Every offset starts
    with its sign, so that [x_str + y_str] splits again. *)
Theorem offset_reads_back (v : Z) :
  int (fmt_d v) = inr v ∧
  int (offset_str v) = inr v ∧
  ∃ digits, offset_str v = String (if v <? 0 then "-"%char else "+"%char) digits.
Proof.
  split; [apply int_fmt_d|].
  unfold offset_str. destruct (Z.ltb_spec v 0) as [Hneg|Hpos].
  - split; [apply int_fmt_d|]. destruct v as [|p|p]; try lia.
    rewrite fmt_d_neg. eexists. reflexivity.
  - split; [|eexists; reflexivity].
    change (int ("+" +:+ ?s)) with (read_unsigned false s).
    destruct v as [|p|p]; [done| |lia].
    rewrite fmt_d_pos. apply (read_unsigned_pretty false).
Qed.

(** X17. The canvas is made before any line is validated: once the event
    file has been read, the first command of the run is the one that
    creates [empty.miff], whatever the lines hold and however the run ends;
    a line that cannot be parsed is only met afterwards, in the loop over
    the locations. *)
Theorem canvas_precedes_validation `{Host}
    (event_file level_image canvas_size_x canvas_size_y content : string)
    (scale : float) (log : list event) :
  read_file event_file = Some content →
  ∃ rest,
    calls (GenerateHeatMap event_file level_image canvas_size_x canvas_size_y
             scale log).1
    = calls log ++
      ["convert"; "-size"; canvas_size_x +:+ "x" +:+ canvas_size_y;
       "pattern:gray100"; "empty.miff"] :: rest.
Proof.
  intros Hread. unfold GenerateHeatMap. unfold bind at 1, print at 1.
  unfold bind at 1, lift at 1. rewrite Hread.
  destruct (aggregate (file_lines content)) as [d m].
  unfold bind at 1. rewrite Execute_spec.
  destruct (exit_status _ _) as [status|].
  2:{ exists []. simpl. rewrite !calls_app. simpl. by rewrite app_nil_r. }
  destruct (0 <? status).
  { exists []. simpl. rewrite !calls_app. simpl. by rewrite app_nil_r. }
  set (log1 := (log ++ [Print ("Reading " +:+ event_file +:+ "...")])
               ++ [Call ["convert"; "-size"; canvas_size_x +:+ "x" +:+ canvas_size_y;
                         "pattern:gray100"; "empty.miff"]]).
  assert (Hext : ∀ log2, (∃ rest, calls log2 = calls log1 ++ rest) →
    ∃ rest, calls log2
            = calls log ++
              ["convert"; "-size"; canvas_size_x +:+ "x" +:+ canvas_size_y;
               "pattern:gray100"; "empty.miff"] :: rest).
  { intros log2 [rest Hr]. exists rest. rewrite Hr. unfold log1.
    rewrite !calls_app. simpl. by rewrite app_nil_r, <-app_assoc. }
  apply Hext.
  unfold bind at 1, print at 1. unfold bind at 1.
  match goal with |- context [spots d m canvas_size_y scale ?tp ?ks ?pr ?lg] =>
    destruct (spots_calls_prefix d m canvas_size_y scale tp ks pr lg) as [r2 Hr2];
    destruct (spots d m canvas_size_y scale tp ks pr lg) as [log2 [e|[]]] end;
    simpl in Hr2; rewrite calls_app in Hr2; simpl in Hr2;
    rewrite app_nil_r in Hr2.
  { eauto. }
  assert (Hstep : ∀ (args : list string) (k : Py unit) (log3 : list event),
    (∃ rest, calls log3 = calls log1 ++ rest) →
    (∀ log4, (∃ rest, calls log4 = calls log1 ++ rest) →
             ∃ rest, calls (k log4).1 = calls log1 ++ rest) →
    ∃ rest, calls ((Execute args ;;; k) log3).1 = calls log1 ++ rest).
  { intros args k log3 [r3 Hr3] Hk. unfold bind. rewrite Execute_spec.
    assert (Hcall : ∃ rest, calls (log3 ++ [Call args]) = calls log1 ++ rest).
    { eexists. by rewrite calls_app, Hr3, <-app_assoc. }
    destruct (exit_status log3 args) as [st|]; [|done].
    destruct (0 <? st); [done|]. by apply Hk. }
  apply Hstep; [eauto|]. intros log4 H4.
  apply Hstep; [done|]. intros log5 H5.
  apply Hstep; [done|]. intros log6 [r6 Hr6].
  unfold print. simpl. exists r6. rewrite calls_app. simpl. by rewrite app_nil_r.
Qed.

Lemma canvas_precedes_validation_witness :
  ∃ rest,
    calls (@GenerateHeatMap (scripted_host ("here" +:+ newline) 0)
             "events.txt" "level.png" "100" "100" 1 []).1
    = ["convert"; "-size"; "100x100"; "pattern:gray100"; "empty.miff"] :: rest.
Proof.
  apply (@canvas_precedes_validation (scripted_host ("here" +:+ newline) 0)
           "events.txt" "level.png" "100" "100" ("here" +:+ newline) 1%float []).
  reflexivity.
Defined.
